(** * Equality-constrained quadratic programming (jaxopt/_src/eq_qp.py)

    A shallow embedding of [EqualityConstrainedQP] and of
    [_make_eq_qp_optimality_fun].

    - A one-dimensional [jnp] array is a [vec], a list of exact rationals
      (canonical rationals [Qc], so that equality is Leibniz equality).
    - A two-dimensional array is a [Mat]: a row-major list of rows, all of the
      same length [m_cols].
    - Operations that raise in JAX on a shape mismatch return [None] in the
      pure functions, and an error in the effect monad [M] used for [run].
    - [run] threads a call log: every call the code makes on the linear
      operators, the parameter validation and the call of the pluggable
      linear solver are recorded as events, so that claims about which
      calls happen, and in which order, can be stated. *)

From Stdlib Require Import String List Bool Arith Lia.
From Stdlib Require Import QArith Qcanon.
From Stdlib Require Import Reals Qreals.
Import ListNotations.

Set Implicit Arguments.

Local Open Scope Qc_scope.

(** ** Arrays *)

Definition vec := list Qc.

Record Mat := mkMat {
  m_cols : nat;
  m_data : list (list Qc);
  m_wf : forallb (fun r => Nat.eqb (length r) m_cols) m_data = true
}.

Definition m_rows (M : Mat) : nat := length (m_data M).

Definition half : Qc := Q2Qc (1 # 2).

(** Elementwise combination of two arrays of the same shape. *)
Fixpoint vzip (f : Qc -> Qc -> Qc) (xs ys : vec) : vec :=
  match xs, ys with
  | x :: xs', y :: ys' => f x y :: vzip f xs' ys'
  | _, _ => []
  end.

Definition vadd (xs ys : vec) : vec := vzip Qcplus xs ys.
Definition vsub (xs ys : vec) : vec := vzip Qcminus xs ys.
Definition vscale (k : Qc) (xs : vec) : vec := map (Qcmult k) xs.

(** [jnp.dot] of two one-dimensional arrays (shapes checked by the caller). *)
Fixpoint vdot (xs ys : vec) : Qc :=
  match xs, ys with
  | x :: xs', y :: ys' => x * y + vdot xs' ys'
  | _, _ => 0
  end.

(** ** Tree-structured vector-space operations ([tree_util]) *)

(** Modelled from the spec: [tree_util.tree_add], [tree_sub],
    [tree_negative], [tree_vdot] (the tree-structured vector-space
    operations of spec section 6). On one-dimensional leaves they act
    elementwise; operands of different shapes raise. *)
Definition tree_add (xs ys : vec) : option vec :=
  if Nat.eqb (length xs) (length ys) then Some (vadd xs ys) else None.

Definition tree_sub (xs ys : vec) : option vec :=
  if Nat.eqb (length xs) (length ys) then Some (vsub xs ys) else None.

Definition tree_negative (xs : vec) : vec := map Qcopp xs.

Definition tree_scalar_mul (k : Qc) (xs : vec) : vec := vscale k xs.

Definition tree_vdot (xs ys : vec) : option Qc :=
  if Nat.eqb (length xs) (length ys) then Some (vdot xs ys) else None.

(** Option bind, for the pure code that raises on shape errors. *)
Definition obind {A B} (m : option A) (k : A -> option B) : option B :=
  match m with Some a => k a | None => None end.

Notation "'let?' x ':=' m 'in' k" := (obind m (fun x => k))
  (at level 200, x name, m at level 100, k at level 200).

(** ** Dense matrices: [jnp.dot(M, x)] and [jnp.dot(M.T, y)] *)

Fixpoint transpose_rows (cols : nat) (rows : list (list Qc)) : list (list Qc) :=
  match rows with
  | [] => repeat [] cols
  | r :: rs => map (fun p => fst p :: snd p) (combine r (transpose_rows cols rs))
  end.

Definition mv (rows : list (list Qc)) (x : vec) : vec :=
  map (fun r => vdot r x) rows.

Definition dense_matvec (M : Mat) (x : vec) : option vec :=
  if Nat.eqb (length x) (m_cols M) then Some (mv (m_data M) x) else None.

Definition dense_rmatvec (M : Mat) (y : vec) : option vec :=
  if Nat.eqb (length y) (m_rows M)
  then Some (mv (transpose_rows (m_cols M) (m_data M)) y) else None.

(** ** Linear operators ([linear_operator._make_linear_operator]) *)

(** A linear operator as the code uses it: [Q(u)] (its [matvec]) and the
    reverse-mode pullback of [matvec] at a point [x], applied to a cotangent
    [y] ([lo_vjp x y]); for a linear map this is the adjoint applied to [y],
    independent of [x]. *)
Record LinearOperator := mkLinearOperator {
  lo_matvec : vec -> option vec;
  lo_vjp : vec -> vec -> option vec
}.

(** [A.matvec_and_rmatvec(x, y)]: [(A(x), Aᵀ(y))] in one pass. *)
Definition matvec_and_rmatvec (L : LinearOperator) (x y : vec)
  : option (vec * vec) :=
  let? a := lo_matvec L x in
  let? r := lo_vjp L x y in
  Some (a, r).

(** A user-supplied [matvec(params, u)] together with the pullback that
    reverse-mode differentiation derives from it; a pullback always returns a
    cotangent of the primal's shape. *)
Record UserMatvec := mkUserMatvec {
  um_fun : Mat -> vec -> option vec;
  um_vjp : Mat -> vec -> vec -> option vec;
  um_vjp_shape : forall p x y r, um_vjp p x y = Some r -> length r = length x
}.

(** Modelled from the spec: [DenseLinearOperator] (section 6: applying a
    dense matrix is the matrix-vector product and its adjoint uses the
    transpose). *)
Definition DenseLinearOperator (M : Mat) : LinearOperator :=
  {| lo_matvec := dense_matvec M;
     lo_vjp := fun x y => let? _ := dense_matvec M x in dense_rmatvec M y |}.

(** Modelled from the spec: [FunctionalLinearOperator] (section 6: the
    adjoint of a user callable is derived by reverse-mode differentiation);
    the pullback checks that the cotangent has the shape of the output, as
    [jax.vjp] does. *)
Definition FunctionalLinearOperator (um : UserMatvec) (p : Mat)
  : LinearOperator :=
  {| lo_matvec := um_fun um p;
     lo_vjp := fun x y =>
       let? fx := um_fun um p x in
       if Nat.eqb (length y) (length fx) then um_vjp um p x y else None |}.

(** Modelled from the spec: [_make_linear_operator(matvec)]. *)
Definition _make_linear_operator (matvec : option UserMatvec)
  : Mat -> LinearOperator :=
  match matvec with
  | None => DenseLinearOperator
  | Some um => FunctionalLinearOperator um
  end.

(** ** KKT points and solutions ([base.KKTSolution], [base.OptStep]) *)

Record KKTSolution := mkKKTSolution {
  primal : vec;
  dual_eq : vec;
  dual_ineq : option vec
}.

Record OptStep := mkOptStep {
  params : KKTSolution;
  state : option unit
}.

Definition kkt_shape (s : KKTSolution) : nat * nat * option nat :=
  (length (primal s), length (dual_eq s), option_map (@length Qc) (dual_ineq s)).

(** ** The optimality function ([_make_eq_qp_optimality_fun]) *)

Section Optimality.

Variables matvec_Q matvec_A : Mat -> LinearOperator.

(** [obj_fun(primal_var, params_obj)]: [0.5 * <x, Q(x)> + <x, c>]. *)
Definition obj_fun (primal_var : vec) (params_obj : Mat * vec) : option Qc :=
  let (params_Q, c) := params_obj in
  let Q := matvec_Q params_Q in
  let? qx := lo_matvec Q primal_var in
  let? v1 := tree_vdot primal_var qx in
  let? v2 := tree_vdot primal_var c in
  Some (half * v1 + v2).

(** [eq_fun(primal_var, params_eq)]: [A(x) - b]. *)
Definition eq_fun (primal_var : vec) (params_eq : Mat * vec) : option vec :=
  let (params_A, b) := params_eq in
  let A := matvec_A params_A in
  let? ax := lo_matvec A primal_var in
  tree_sub ax b.

(** Modelled from the spec: [jax.grad(obj_fun)], the gradient of the
    objective that the KKT assembly of [idf.make_kkt_optimality_fun] uses.
    Reverse mode through [obj_fun]: the cotangent [0.5] of [<x, Q(x)>]
    reaches [x] once directly, as [0.5 * Q(x)], and once through [Q], as the
    pullback of [Q] at [x] applied to [0.5 * x]; the cotangent [1] of
    [<x, c>] contributes [c]. *)
Definition obj_grad (primal_var : vec) (params_obj : Mat * vec) : option vec :=
  let? _ := obj_fun primal_var params_obj in
  let (params_Q, c) := params_obj in
  let Q := matvec_Q params_Q in
  let? qx := lo_matvec Q primal_var in
  let? qtx := lo_vjp Q primal_var (tree_scalar_mul half primal_var) in
  let? g := tree_add (tree_scalar_mul half qx) qtx in
  tree_add g c.

(** Modelled from the spec: the pullback of [eq_fun] with respect to
    [primal_var] ([jax.vjp(eq_fun, primal_var, params_eq)]), applied to the
    dual variable; the cotangent must have the shape of [eq_fun]'s output. *)
Definition eq_vjp (primal_var : vec) (params_eq : Mat * vec) (y : vec)
  : option vec :=
  let? fx := eq_fun primal_var params_eq in
  if Nat.eqb (length y) (length fx)
  then lo_vjp (matvec_A (fst params_eq)) primal_var y
  else None.

(** Modelled from the spec: [idf.make_kkt_optimality_fun(obj_fun, eq_fun,
    ineq_fun=None)] (section 4.1: stationarity is the objective gradient
    plus the constraint-Jacobian term, feasibility is [eq_fun], no
    inequality residual). Returns [KKTSolution(stationarity,
    primal_feasability, None)]. *)
Definition optimality_fun_with_ineq (params : KKTSolution)
    (params_obj : Mat * vec) (params_eq : Mat * vec) (params_ineq : option unit)
  : option KKTSolution :=
  let primal_var := primal params in
  let eq_dual_var := dual_eq params in
  let? stationarity := obj_grad primal_var params_obj in
  let? primal_feasability := eq_fun primal_var params_eq in
  let? jt := eq_vjp primal_var params_eq eq_dual_var in
  let? stationarity' := tree_add stationarity jt in
  Some (mkKKTSolution stationarity' primal_feasability None).

(** [optimality_fun(params, params_obj, params_eq)]. *)
Definition optimality_fun (params : KKTSolution) (params_obj : Mat * vec)
    (params_eq : Mat * vec) : option KKTSolution :=
  optimality_fun_with_ineq params params_obj params_eq None.

End Optimality.

Definition _make_eq_qp_optimality_fun (matvec_Q matvec_A : Mat -> LinearOperator)
  : KKTSolution -> Mat * vec -> Mat * vec -> option KKTSolution :=
  optimality_fun matvec_Q matvec_A.

(** ** Effects of [run]: a call log and exceptions *)

Inductive event :=
| EvValidate
| EvMakeOperator (name : string)
| EvMatvec (name : string) (x : vec)
| EvMatvecAndRmatvec (name : string) (x y : vec)
| EvSolve (tol : Qc) (maxiter : nat).

Inductive error :=
| ShapeMismatch (what : string) (expected actual : nat)
| JaxShapeError (what : string).

(** A computation returns its call log and either an exception or a value;
    the log is kept when an exception is raised. *)
Definition M (A : Type) : Type := list event * (error + A).

Definition ret {A} (a : A) : M A := ([], inr a).
Definition raise {A} (e : error) : M A := ([], inl e).
Definition tell (evs : list event) : M unit := (evs, inr tt).

Definition mbind {A B} (m : M A) (k : A -> M B) : M B :=
  match snd m with
  | inl e => (fst m, inl e)
  | inr a => let r := k a in (fst m ++ fst r, snd r)
  end.

Notation "'let!' x ':=' m 'in' k" := (mbind m (fun x => k))
  (at level 200, x name, m at level 100, k at level 200).

(** A shape error of the array library becomes an exception. *)
Definition lift {A} (what : string) (o : option A) : M A :=
  match o with Some a => ret a | None => raise (JaxShapeError what) end.

(** A call [L(x)] on the operator named [name]. *)
Definition call_matvec (name : string) (L : LinearOperator) (x : vec) : M vec :=
  let! _ := tell [EvMatvec name x] in
  lift name (lo_matvec L x).

(** A call [L.matvec_and_rmatvec(x, y)] on the operator named [name]. *)
Definition call_matvec_and_rmatvec (name : string) (L : LinearOperator)
    (x y : vec) : M (vec * vec) :=
  let! _ := tell [EvMatvecAndRmatvec name x y] in
  lift name (matvec_and_rmatvec L x y).

(** Building an operator from its raw parameters ([self.matvec_Q(params_Q)]). *)
Definition make_operator (name : string) (mk : Mat -> LinearOperator) (p : Mat)
  : M LinearOperator :=
  let! _ := tell [EvMakeOperator name] in
  ret (mk p).

(** ** Parameter validation ([cvxpy_wrapper._check_params]) *)

(** Modelled from the spec: [_check_params(params_obj, params_eq)]
    (section 7: a ShapeMismatch is raised when the space of [c] disagrees
    with the domain of [Q], or the space of [b] with the range of [A]). *)
Definition _check_params (params_obj params_eq : Mat * vec) : M unit :=
  let! _ := tell [EvValidate] in
  let (Q, c) := params_obj in
  let (A, b) := params_eq in
  if negb (Nat.eqb (length c) (m_cols Q))
  then raise (ShapeMismatch "Q.shape[1] != c.shape[0]" (m_cols Q) (length c))
  else if negb (Nat.eqb (length b) (m_rows A))
  then raise (ShapeMismatch "A.shape[0] != b.shape[0]" (m_rows A) (length b))
  else ret tt.

(** ** The solver object *)

(** A pluggable linear solver [solve(matvec, b, tol=..., maxiter=...)]. *)
Definition LinearSolver : Type :=
  (vec * vec -> M (vec * vec)) -> vec * vec -> Qc -> nat -> M (vec * vec).

(** The dataclass fields of [EqualityConstrainedQP]. [implicit_diff_solve]
    and [jit] only affect derivatives and compilation, not the value of
    [run], and are not modelled. *)
Record EqualityConstrainedQP := mkEqualityConstrainedQP {
  matvec_Q : option UserMatvec;
  matvec_A : option UserMatvec;
  solve : LinearSolver;
  maxiter : nat;
  tol : Qc
}.

(** The object after [__post_init__]. *)
Record EqQPObject := mkEqQPObject {
  self_check_params : bool;
  self_matvec_Q : Mat -> LinearOperator;
  self_matvec_A : Mat -> LinearOperator;
  self_optimality_fun : KKTSolution -> Mat * vec -> Mat * vec -> option KKTSolution;
  self_solve : LinearSolver;
  self_maxiter : nat;
  self_tol : Qc
}.

Definition __post_init__ (cfg : EqualityConstrainedQP) : EqQPObject :=
  let check := match matvec_Q cfg, matvec_A cfg with
               | None, None => true
               | _, _ => false
               end in
  let mQ := _make_linear_operator (matvec_Q cfg) in
  let mA := _make_linear_operator (matvec_A cfg) in
  {| self_check_params := check;
     self_matvec_Q := mQ;
     self_matvec_A := mA;
     self_optimality_fun := _make_eq_qp_optimality_fun mQ mA;
     self_solve := solve cfg;
     self_maxiter := maxiter cfg;
     self_tol := tol cfg |}.

(** The inner [matvec] of [run]: the saddle-point operator
    [(p, d) |-> (Q(p) + Aᵀ(d), A(p))]. *)
Definition saddle_matvec (Q A : LinearOperator) (u : vec * vec) : M (vec * vec) :=
  let (primal_u, dual_u) := u in
  let! mr := call_matvec_and_rmatvec "A" A primal_u dual_u in
  let (mv_A, rmv_A) := mr in
  let! qu := call_matvec "Q" Q primal_u in
  let! top := lift "tree_add" (tree_add qu rmv_A) in
  ret (top, mv_A).

(** [run(init_params, params_obj, params_eq)], the forward computation; the
    [custom_root] and [jax.jit] wrappers installed by [__post_init__] return
    the same value. *)
Definition run (self : EqQPObject) (init_params : option KKTSolution)
    (params_obj params_eq : Mat * vec) : M OptStep :=
  let! _ := (if self_check_params self then _check_params params_obj params_eq
             else ret tt) in
  let (params_Q, c) := params_obj in
  let (params_A, b) := params_eq in
  let! Q := make_operator "Q" (self_matvec_Q self) params_Q in
  let! A := make_operator "A" (self_matvec_A self) params_A in
  let minus_c := tree_negative c in
  let! _ := tell [EvSolve (self_tol self) (self_maxiter self)] in
  let! sol := self_solve self (saddle_matvec Q A) (minus_c, b)
                (self_tol self) (self_maxiter self) in
  let (primal, dual_eq) := sol in
  ret (mkOptStep (mkKKTSolution primal dual_eq None) None).

(** Modelled from the spec: [tree_util.tree_l2_norm] (section 4.4: the
    Euclidean norm of the tree's leaves), as the square root of the sum over
    the leaves of the sums of their squared entries. *)
Definition sum_sq (xs : vec) : Qc := fold_right (fun x acc => x * x + acc) 0 xs.

Definition tree_leaves (t : KKTSolution) : list vec :=
  primal t :: dual_eq t :: match dual_ineq t with Some v => [v] | None => [] end.

Definition tree_l2_norm (t : KKTSolution) : R :=
  sqrt (Q2R (this (fold_right (fun l acc => sum_sq l + acc) 0 (tree_leaves t)))).

(** [l2_optimality_error(params, params_obj, params_eq)]. *)
Definition l2_optimality_error (self : EqQPObject) (params : KKTSolution)
    (params_obj params_eq : Mat * vec) : option R :=
  let? tree := self_optimality_fun self params params_obj params_eq in
  Some (tree_l2_norm tree).

(** ** Sequences of method calls on one object *)

Inductive method_call :=
| CallRun (init_params : option KKTSolution) (params_obj params_eq : Mat * vec)
| CallOptimalityFun (p : KKTSolution) (params_obj params_eq : Mat * vec)
| CallL2OptimalityError (p : KKTSolution) (params_obj params_eq : Mat * vec).

Inductive method_result :=
| ResRun (r : M OptStep)
| ResOptimalityFun (r : option KKTSolution)
| ResL2OptimalityError (r : option R).

(** One method call: the object after the call and the call's result. None
    of [run], [optimality_fun] and [l2_optimality_error] assigns an
    attribute of [self]. *)
Definition call_method (self : EqQPObject) (c : method_call)
  : EqQPObject * method_result :=
  match c with
  | CallRun i po pe => (self, ResRun (run self i po pe))
  | CallOptimalityFun p po pe =>
      (self, ResOptimalityFun (self_optimality_fun self p po pe))
  | CallL2OptimalityError p po pe =>
      (self, ResL2OptimalityError (l2_optimality_error self p po pe))
  end.

Definition result_of (self : EqQPObject) (c : method_call) : method_result :=
  snd (call_method self c).

Fixpoint exec (self : EqQPObject) (cs : list method_call)
  : EqQPObject * list method_result :=
  match cs with
  | [] => (self, [])
  | c :: cs' =>
      let (self', r) := call_method self c in
      let (self'', rs) := exec self' cs' in
      (self'', r :: rs)
  end.

(** A user-supplied matvec: [matvec(M, u) = M u], with the pullback
    [y |-> Mᵀ y] that reverse-mode differentiation derives from it. *)
Definition user_dense_matvec : UserMatvec.
Proof.
  refine (mkUserMatvec (fun p => dense_matvec p)
            (fun p x y => let? _ := dense_matvec p x in dense_rmatvec p y) _).
  intros p x y r; unfold dense_matvec, dense_rmatvec.
  destruct (Nat.eqb (length x) (m_cols p)) eqn:E1; simpl; [|discriminate].
  destruct (Nat.eqb (length y) (m_rows p)); [|discriminate].
  intro H; injection H as <-; unfold mv; rewrite length_map.
  apply Nat.eqb_eq in E1; rewrite E1; clear.
  destruct p as [cols rows wf]; simpl; induction rows as [|r0 rows IH]; simpl in *.
  - apply repeat_length.
  - apply andb_prop in wf as [w1 w2]; apply Nat.eqb_eq in w1.
    rewrite length_map, length_combine; pose proof (IH w2) as H'.
    unfold vec in *; lia.
Defined.

(** ** A pluggable solver used in the examples: Richardson iteration *)

Definition pair_add (u v : vec * vec) : option (vec * vec) :=
  let? a := tree_add (fst u) (fst v) in
  let? b := tree_add (snd u) (snd v) in
  Some (a, b).

Definition pair_sub (u v : vec * vec) : option (vec * vec) :=
  let? a := tree_sub (fst u) (fst v) in
  let? b := tree_sub (snd u) (snd v) in
  Some (a, b).

Fixpoint richardson_loop (matvec : vec * vec -> M (vec * vec))
    (rhs x : vec * vec) (tl : Qc) (k : nat) : M (vec * vec) :=
  match k with
  | O => ret x
  | S k' =>
      let! ax := matvec x in
      let! r := lift "solve" (pair_sub rhs ax) in
      if Qle_bool (this (sum_sq (fst r) + sum_sq (snd r))) (this (tl * tl))
      then ret x
      else let! x' := lift "solve" (pair_add x r) in
           richardson_loop matvec rhs x' tl k'
  end.

(** Starts from zero, like the default solver. *)
Definition solve_richardson : LinearSolver :=
  fun matvec rhs tl mx =>
    richardson_loop matvec rhs (map (fun _ => 0) (fst rhs), map (fun _ => 0) (snd rhs))
      tl mx.

(** ** Concrete data *)

Definition qc (z : Z) : Qc := Q2Qc (inject_Z z).

Definition vec_eqb (xs ys : vec) : bool :=
  Nat.eqb (length xs) (length ys) && forallb (fun p => Qc_eq_bool (fst p) (snd p)) (combine xs ys).

Definition kkt_eqb (s t : KKTSolution) : bool :=
  vec_eqb (primal s) (primal t) && vec_eqb (dual_eq s) (dual_eq t) &&
  match dual_ineq s, dual_ineq t with
  | None, None => true
  | Some u, Some v => vec_eqb u v
  | _, _ => false
  end.

(** [Q] is symmetric: the code's [Q.T] equals [Q]. *)
Definition is_symmetric (Q : Mat) : bool :=
  Nat.eqb (length (transpose_rows (m_cols Q) (m_data Q))) (m_rows Q) &&
  forallb (fun p => vec_eqb (fst p) (snd p))
    (combine (transpose_rows (m_cols Q) (m_data Q)) (m_data Q)).

(** The tree inner product of two KKT pairs [(primal, dual)]. *)
Definition pair_vdot (u v : vec * vec) : option Qc :=
  let? a := tree_vdot (fst u) (fst v) in
  let? b := tree_vdot (snd u) (snd v) in
  Some (a + b).

(** The linear combination [alpha u + beta v] of two KKT pairs. *)
Definition pair_axpby (alpha : Qc) (u : vec * vec) (beta : Qc) (v : vec * vec)
  : vec * vec :=
  (vadd (vscale alpha (fst u)) (vscale beta (fst v)),
   vadd (vscale alpha (snd u)) (vscale beta (snd v))).

(** [[2, 0], [0, 2]] and [[1, 1]]: minimise [x1² + x2²] subject to [x1 + x2 = 1]. *)
Definition Q_ex : Mat := mkMat 2 [[qc 2; qc 0]; [qc 0; qc 2]] eq_refl.
Definition A_ex : Mat := mkMat 2 [[qc 1; qc 1]] eq_refl.
Definition c_ex : vec := [qc 0; qc 0].
Definition b_ex : vec := [qc 1].

(** A non-symmetric [Q] = [[0, 1], [0, 0]] and the point [x = [1, 0]],
    [lambda = [0]]. *)
Definition Q_ns : Mat := mkMat 2 [[qc 0; qc 1]; [qc 0; qc 0]] eq_refl.
Definition x_ns : vec := [qc 1; qc 0].
Definition lam_ns : vec := [qc 0].

Definition default_cfg : EqualityConstrainedQP :=
  mkEqualityConstrainedQP None None solve_richardson 1000 (Q2Qc (1 # 100000)).

(** A solver that returns [([1/2, 1/2], [-1])], the solution of the
    example's saddle-point system. *)
Definition solve_example : LinearSolver :=
  fun _ _ _ _ => ret ([half; half], [qc (-1)]).

(** ** Vector algebra *)

Lemma length_vzip f xs ys :
  length xs = length ys -> length (vzip f xs ys) = length xs.
Proof.
  revert ys; induction xs as [|x xs IH]; intros [|y ys] H; simpl in *;
    try congruence; f_equal; apply IH; congruence.
Qed.

Lemma length_mv rows x : length (mv rows x) = length rows.
Proof. unfold mv; apply length_map. Qed.

Lemma length_vscale k xs : length (vscale k xs) = length xs.
Proof. unfold vscale; apply length_map. Qed.

Lemma vdot_vadd_r x a b :
  length a = length b -> vdot x (vadd a b) = vdot x a + vdot x b.
Proof.
  revert a b; induction x as [|x0 x IH]; intros [|a0 a] [|b0 b] H; simpl in *;
    try ring; try congruence.
  rewrite IH by congruence; ring.
Qed.

Lemma vdot_vscale_r x k a : vdot x (vscale k a) = k * vdot x a.
Proof.
  revert a; induction x as [|x0 x IH]; intros [|a0 a]; simpl; try ring.
  rewrite IH; ring.
Qed.

Lemma vdot_comm x y : vdot x y = vdot y x.
Proof.
  revert y; induction x as [|x0 x IH]; intros [|y0 y]; simpl; try ring.
  rewrite IH; ring.
Qed.

Lemma vdot_vadd_l a b y :
  length a = length b -> vdot (vadd a b) y = vdot a y + vdot b y.
Proof.
  intro H; rewrite vdot_comm, vdot_vadd_r by exact H.
  rewrite (vdot_comm y a), (vdot_comm y b); reflexivity.
Qed.

Lemma vdot_repeat_zero_r x n : vdot x (repeat 0 n) = 0.
Proof.
  revert n; induction x as [|x0 x IH]; intros [|n]; simpl; try ring.
  rewrite IH; ring.
Qed.

Lemma mv_vscale rows k x : mv rows (vscale k x) = vscale k (mv rows x).
Proof.
  unfold mv; unfold vscale at 2; rewrite map_map; apply map_ext; intro r.
  apply vdot_vscale_r.
Qed.

Lemma vscale_vadd k a b : vscale k (vadd a b) = vadd (vscale k a) (vscale k b).
Proof.
  revert b; induction a as [|a0 a IH]; intros [|b0 b]; simpl; try reflexivity.
  unfold vadd, vscale in *; simpl; rewrite IH; f_equal; ring.
Qed.

Lemma half_two : half * (1 + 1) = 1.
Proof. apply Qc_is_canon; vm_compute; reflexivity. Qed.

Lemma vscale_half_double a : vscale half (vadd a a) = a.
Proof.
  induction a as [|a0 a IH]; simpl; [reflexivity|].
  unfold vadd, vscale in *; simpl; rewrite IH; f_equal.
  transitivity ((half * (1 + 1)) * a0); [ring|rewrite half_two; ring].
Qed.

(** [Mᵀ] as the code builds it has [cols] rows, each as long as [M] is tall. *)
Lemma length_transpose_rows cols rows :
  forallb (fun r => Nat.eqb (length r) cols) rows = true ->
  length (transpose_rows cols rows) = cols.
Proof.
  induction rows as [|r rs IH]; simpl; intro H.
  - apply repeat_length.
  - apply andb_prop in H as [H1 H2]; apply Nat.eqb_eq in H1.
    rewrite length_map, length_combine, IH by exact H2; lia.
Qed.

Lemma mv_transpose_cons r rs cols y0 ys :
  mv (map (fun p => fst p :: snd p) (combine r (transpose_rows cols rs))) (y0 :: ys)
  = vadd (vscale y0 r) (mv (transpose_rows cols rs) ys).
Proof.
  unfold mv, vadd, vscale; generalize (transpose_rows cols rs) as T.
  induction r as [|a r IH]; intros [|t T]; simpl; try reflexivity.
  f_equal; [ring | apply IH].
Qed.

(** The adjoint identity of the dense operator:
    [<M x, y> = <x, Mᵀ y>]. *)
Lemma vdot_mv_transpose cols rows x y :
  forallb (fun r => Nat.eqb (length r) cols) rows = true ->
  length x = cols -> length y = length rows ->
  vdot (mv rows x) y = vdot x (mv (transpose_rows cols rows) y).
Proof.
  revert y; induction rows as [|r rs IH]; intros y Hwf Hx Hy.
  - destruct y; [|discriminate]; simpl.
    unfold mv; rewrite map_repeat; simpl; rewrite vdot_repeat_zero_r; reflexivity.
  - destruct y as [|y0 ys]; [discriminate|]; simpl in Hwf, Hy.
    apply andb_prop in Hwf as [H1 H2]; apply Nat.eqb_eq in H1.
    simpl transpose_rows; rewrite mv_transpose_cons.
    rewrite vdot_vadd_r
      by (rewrite length_vscale, length_mv, length_transpose_rows; auto).
    rewrite vdot_vscale_r, <- IH by (auto; lia).
    simpl; rewrite (vdot_comm x r); ring.
Qed.

Lemma length_vzip_min f xs ys :
  length (vzip f xs ys) = Nat.min (length xs) (length ys).
Proof.
  revert ys; induction xs as [|x xs IH]; intros [|y ys]; simpl; auto.
Qed.

Lemma vec_eqb_sound xs ys : vec_eqb xs ys = true -> xs = ys.
Proof.
  unfold vec_eqb; revert ys; induction xs as [|x xs IH]; intros [|y ys] H;
    simpl in *; try discriminate; auto.
  apply andb_prop in H as [H1 H2]; apply andb_prop in H2 as [H2 H3].
  apply Qc_eq_bool_correct in H2; subst; f_equal; apply IH.
  rewrite H1, H3; reflexivity.
Qed.

Lemma is_symmetric_transpose Q :
  is_symmetric Q = true -> transpose_rows (m_cols Q) (m_data Q) = m_data Q.
Proof.
  unfold is_symmetric, m_rows; intro H; apply andb_prop in H as [H1 H2].
  apply Nat.eqb_eq in H1; revert H1 H2.
  generalize (transpose_rows (m_cols Q) (m_data Q)) as T; generalize (m_data Q) as D.
  induction D as [|d D IH]; intros [|t T] H1 H2; simpl in *; try discriminate; auto.
  apply andb_prop in H2 as [H2 H3]; apply vec_eqb_sound in H2; subst.
  f_equal; apply IH; auto.
Qed.

Ltac eqb_true :=
  repeat match goal with
  | |- context [Nat.eqb ?a ?b] =>
      replace (Nat.eqb a b) with true
        by (symmetry; apply Nat.eqb_eq; unfold vadd, vsub;
            repeat (rewrite length_vzip_min || rewrite length_vscale ||
                    rewrite length_mv || rewrite length_map);
            unfold m_rows in *; lia)
  end.

(** ** The modelled gradient is the derivative of [obj_fun] *)

Lemma vadd_cons x xs y ys : vadd (x :: xs) (y :: ys) = (x + y) :: vadd xs ys.
Proof. reflexivity. Qed.

Lemma mv_vadd rows a b :
  length a = length b -> mv rows (vadd a b) = vadd (mv rows a) (mv rows b).
Proof.
  intro H; unfold mv; induction rows as [|r rows IH]; [reflexivity|].
  rewrite !map_cons, vadd_cons; f_equal; [apply vdot_vadd_r, H | exact IH].
Qed.

Lemma vdot_vscale_l k a y : vdot (vscale k a) y = k * vdot a y.
Proof. rewrite vdot_comm, vdot_vscale_r, vdot_comm; reflexivity. Qed.

Ltac len :=
  unfold vadd, vsub in *;
  repeat (rewrite length_vzip_min || rewrite length_vscale ||
          rewrite length_mv || rewrite length_map);
  unfold m_rows in *; lia.

Lemma dense_obj_fun (Q : Mat) (x c : vec) :
  m_rows Q = m_cols Q -> length x = m_cols Q -> length c = m_cols Q ->
  obj_fun DenseLinearOperator x (Q, c)
  = Some (half * vdot x (mv (m_data Q) x) + vdot x c).
Proof.
  intros HQ Hx Hc.
  unfold obj_fun, tree_vdot; simpl; unfold dense_matvec.
  do 3 (eqb_true; cbn [obind]); reflexivity.
Qed.

Lemma dense_obj_grad (Q : Mat) (x c : vec) :
  m_rows Q = m_cols Q -> length x = m_cols Q -> length c = m_cols Q ->
  obj_grad DenseLinearOperator x (Q, c)
  = Some (vadd (vadd (vscale half (mv (m_data Q) x))
                     (mv (transpose_rows (m_cols Q) (m_data Q)) (vscale half x))) c).
Proof.
  intros HQ Hx Hc.
  pose proof (length_transpose_rows _ _ (m_wf Q)) as HQt.
  unfold obj_grad, obj_fun, tree_vdot, tree_add, tree_scalar_mul; simpl.
  unfold dense_matvec, dense_rmatvec; do 6 (eqb_true; cbn [obind]); reflexivity.
Qed.

Lemma obj_fun_along (Q : Mat) (x d c : vec) (t : Qc) :
  m_rows Q = m_cols Q -> length x = m_cols Q -> length d = m_cols Q ->
  length c = m_cols Q ->
  obj_fun DenseLinearOperator (vadd x (vscale t d)) (Q, c)
  = Some ((half * vdot x (mv (m_data Q) x) + vdot x c)
          + t * vdot (vadd (vadd (vscale half (mv (m_data Q) x))
                                 (mv (transpose_rows (m_cols Q) (m_data Q))
                                     (vscale half x))) c) d
          + t * t * (half * vdot d (mv (m_data Q) d))).
Proof.
  intros HQ Hx Hd Hc.
  pose proof (length_transpose_rows _ _ (m_wf Q)) as HQt.
  unfold obj_fun, tree_vdot; simpl; unfold dense_matvec.
  do 3 (eqb_true; cbn [obind]).
  f_equal.
  rewrite mv_vadd; [|len..].
  rewrite mv_vscale.
  rewrite vdot_vadd_r; [|len..].
  rewrite !vdot_vadd_l; [|len..].
  rewrite !vdot_vscale_r, !vdot_vscale_l, mv_vscale, vdot_vscale_l.
  rewrite (vdot_comm (mv (transpose_rows (m_cols Q) (m_data Q)) x) d).
  rewrite <- (@vdot_mv_transpose (m_cols Q) (m_data Q) d x (m_wf Q)); [|len..].
  rewrite (vdot_comm (mv (m_data Q) x) d), (vdot_comm (mv (m_data Q) d) x),
    (vdot_comm c d).
  ring.
Qed.

(** ** The optimality function on dense operators *)

Lemma dense_optimality_fun (Q A : Mat) (x lam c b : vec) :
  m_rows Q = m_cols Q -> m_cols A = m_cols Q ->
  length x = m_cols Q -> length c = m_cols Q ->
  length lam = m_rows A -> length b = m_rows A ->
  _make_eq_qp_optimality_fun DenseLinearOperator DenseLinearOperator
    (mkKKTSolution x lam None) (Q, c) (A, b)
  = Some (mkKKTSolution
            (vadd (vadd (vadd (vscale half (mv (m_data Q) x))
                              (mv (transpose_rows (m_cols Q) (m_data Q)) (vscale half x)))
                        c)
                  (mv (transpose_rows (m_cols A) (m_data A)) lam))
            (vsub (mv (m_data A) x) b) None).
Proof.
  intros HQ HA Hx Hc Hl Hb.
  pose proof (length_transpose_rows _ _ (m_wf Q)) as HQt.
  pose proof (length_transpose_rows _ _ (m_wf A)) as HAt.
  unfold _make_eq_qp_optimality_fun, optimality_fun, optimality_fun_with_ineq,
    obj_grad, obj_fun, eq_vjp, eq_fun; simpl.
  unfold dense_matvec, dense_rmatvec, tree_vdot, tree_add, tree_sub,
    tree_scalar_mul; do 6 (eqb_true; cbn [obind]); reflexivity.
Qed.

(** ** C1: the KKT residual *)

(** ** Operators given by a matrix *)

(** The dense operator applies [M] and pulls back through [Mᵀ]. *)
Lemma dense_lo_matvec (M : Mat) x :
  length x = m_cols M -> lo_matvec (DenseLinearOperator M) x = Some (mv (m_data M) x).
Proof.
  intro H; simpl; unfold dense_matvec; rewrite H, Nat.eqb_refl; reflexivity.
Qed.

Lemma dense_lo_vjp (M : Mat) x y :
  length x = m_cols M -> length y = m_rows M ->
  lo_vjp (DenseLinearOperator M) x y
  = Some (mv (transpose_rows (m_cols M) (m_data M)) y).
Proof.
  intros H1 H2; simpl; unfold dense_matvec, dense_rmatvec.
  rewrite H1, Nat.eqb_refl; cbn [obind]; rewrite H2, Nat.eqb_refl; reflexivity.
Qed.

(** The user-supplied matvec [user_dense_matvec] behaves as the dense
    operator of its parameter. *)
Lemma user_dense_lo_matvec (M : Mat) x :
  lo_matvec (FunctionalLinearOperator user_dense_matvec M) x
  = lo_matvec (DenseLinearOperator M) x.
Proof. reflexivity. Qed.

Lemma user_dense_lo_vjp (M : Mat) x y :
  lo_vjp (FunctionalLinearOperator user_dense_matvec M) x y
  = lo_vjp (DenseLinearOperator M) x y.
Proof.
  simpl; unfold dense_matvec, dense_rmatvec.
  destruct (Nat.eqb (length x) (m_cols M)); cbn [obind]; [|reflexivity].
  rewrite length_mv; fold (m_rows M).
  destruct (Nat.eqb (length y) (m_rows M)); reflexivity.
Qed.

(** C1 (amended). For operators [Q] and [A] of any kind (dense matrices or
    user-supplied matvecs) that act at [x] as matrices [MQ] ([n x n]) and
    [MA] ([m x n]), with the transposes as their pullbacks, and well-shaped
    [x], [lambda], [c], [b], the optimality function returns
    [KKTSolution(0.5 (MQ x + MQᵀ x) + c + MAᵀ lambda, MA x - b, None)]: the
    stationarity component is the gradient of the objective
    [0.5 xᵀ Q x + cᵀ x] plus [Aᵀ lambda]. When [MQ] is symmetric the
    stationarity component is [Q x + c + Aᵀ lambda]. *)
Theorem optimality_fun_residual (mQ mA : Mat -> LinearOperator) (pQ pA MQ MA : Mat)
    (x lam c b : vec) :
  lo_matvec (mQ pQ) x = Some (mv (m_data MQ) x) ->
  (forall y, length y = m_rows MQ ->
     lo_vjp (mQ pQ) x y = Some (mv (transpose_rows (m_cols MQ) (m_data MQ)) y)) ->
  lo_matvec (mA pA) x = Some (mv (m_data MA) x) ->
  (forall y, length y = m_rows MA ->
     lo_vjp (mA pA) x y = Some (mv (transpose_rows (m_cols MA) (m_data MA)) y)) ->
  m_rows MQ = m_cols MQ -> m_cols MA = m_cols MQ ->
  length x = m_cols MQ -> length c = m_cols MQ ->
  length lam = m_rows MA -> length b = m_rows MA ->
  _make_eq_qp_optimality_fun mQ mA (mkKKTSolution x lam None) (pQ, c) (pA, b)
  = Some (mkKKTSolution
            (vadd (vadd (vscale half (vadd (mv (m_data MQ) x)
                                           (mv (transpose_rows (m_cols MQ) (m_data MQ)) x)))
                        c)
                  (mv (transpose_rows (m_cols MA) (m_data MA)) lam))
            (vsub (mv (m_data MA) x) b) None)
  /\ (is_symmetric MQ = true ->
      _make_eq_qp_optimality_fun mQ mA (mkKKTSolution x lam None) (pQ, c) (pA, b)
      = Some (mkKKTSolution
                (vadd (vadd (mv (m_data MQ) x) c)
                      (mv (transpose_rows (m_cols MA) (m_data MA)) lam))
                (vsub (mv (m_data MA) x) b) None)).
Proof.
  intros HQm HQt HAm HAt HQ HA Hx Hc Hl Hb.
  pose proof (length_transpose_rows _ _ (m_wf MQ)) as HQl.
  pose proof (length_transpose_rows _ _ (m_wf MA)) as HAl.
  assert (Hres : _make_eq_qp_optimality_fun mQ mA (mkKKTSolution x lam None) (pQ, c) (pA, b)
    = Some (mkKKTSolution
              (vadd (vadd (vscale half (vadd (mv (m_data MQ) x)
                                             (mv (transpose_rows (m_cols MQ) (m_data MQ)) x)))
                          c)
                    (mv (transpose_rows (m_cols MA) (m_data MA)) lam))
              (vsub (mv (m_data MA) x) b) None)).
  { unfold _make_eq_qp_optimality_fun, optimality_fun, optimality_fun_with_ineq,
      obj_grad, obj_fun, eq_vjp, eq_fun; cbn [primal dual_eq fst].
    rewrite HQm, HAm; cbn [obind].
    unfold tree_vdot, tree_add, tree_sub, tree_scalar_mul.
    rewrite HQt by len; rewrite HAt by len.
    do 6 (eqb_true; cbn [obind]).
    rewrite mv_vscale, <- vscale_vadd; reflexivity. }
  split; [exact Hres|].
  intro Hs; rewrite Hres, (is_symmetric_transpose MQ Hs), vscale_half_double.
  reflexivity.
Qed.

(** At the non-symmetric [Q_ns] given through the user-supplied matvec
    [user_dense_matvec], and at the symmetric [Q_ex] given densely. *)
Lemma optimality_fun_residual_witness :
  _make_eq_qp_optimality_fun
    (_make_linear_operator (Some user_dense_matvec))
    (_make_linear_operator (Some user_dense_matvec))
    (mkKKTSolution x_ns lam_ns None) (Q_ns, c_ex) (A_ex, b_ex)
  = Some (mkKKTSolution
            (vadd (vadd (vscale half (vadd (mv (m_data Q_ns) x_ns)
                                           (mv (transpose_rows (m_cols Q_ns) (m_data Q_ns)) x_ns)))
                        c_ex)
                  (mv (transpose_rows (m_cols A_ex) (m_data A_ex)) lam_ns))
            (vsub (mv (m_data A_ex) x_ns) b_ex) None) /\
  _make_eq_qp_optimality_fun DenseLinearOperator DenseLinearOperator
    (mkKKTSolution [half; half] [qc (-1)] None) (Q_ex, c_ex) (A_ex, b_ex)
  = Some (mkKKTSolution
            (vadd (vadd (mv (m_data Q_ex) [half; half]) c_ex)
                  (mv (transpose_rows (m_cols A_ex) (m_data A_ex)) [qc (-1)]))
            (vsub (mv (m_data A_ex) [half; half]) b_ex) None).
Proof.
  split.
  - apply (proj1 (@optimality_fun_residual
                    (_make_linear_operator (Some user_dense_matvec))
                    (_make_linear_operator (Some user_dense_matvec))
                    Q_ns A_ex Q_ns A_ex x_ns lam_ns c_ex b_ex
                    ltac:(vm_compute; reflexivity)
                    ltac:(intros y Hy; cbn [_make_linear_operator];
                          rewrite user_dense_lo_vjp; apply dense_lo_vjp;
                          [reflexivity|exact Hy])
                    ltac:(vm_compute; reflexivity)
                    ltac:(intros y Hy; cbn [_make_linear_operator];
                          rewrite user_dense_lo_vjp; apply dense_lo_vjp;
                          [reflexivity|exact Hy])
                    eq_refl eq_refl eq_refl eq_refl eq_refl eq_refl)).
  - apply (proj2 (@optimality_fun_residual DenseLinearOperator DenseLinearOperator
                    Q_ex A_ex Q_ex A_ex [half; half] [qc (-1)] c_ex b_ex
                    (dense_lo_matvec Q_ex [half; half] eq_refl)
                    (fun y Hy => dense_lo_vjp Q_ex [half; half] y eq_refl Hy)
                    (dense_lo_matvec A_ex [half; half] eq_refl)
                    (fun y Hy => dense_lo_vjp A_ex [half; half] y eq_refl Hy)
                    eq_refl eq_refl eq_refl eq_refl eq_refl eq_refl)).
    vm_compute; reflexivity.
Defined.

(** C1 fails for a non-symmetric [Q]: at [Q = [[0, 1], [0, 0]]], [c = 0],
    [A = [[1, 1]]], [b = [1]], the point [x = [1, 0]], [lambda = [0]]
    satisfies [Q x + c + Aᵀ lambda = 0] and [A x - b = 0], yet the
    optimality function does not return that (zero) residual: its
    stationarity component is [[0, 1/2]]. *)
Lemma optimality_fun_nonsymmetric_counterexample :
  kkt_eqb (mkKKTSolution
             (vadd (vadd (mv (m_data Q_ns) x_ns) c_ex)
                   (mv (transpose_rows (m_cols A_ex) (m_data A_ex)) lam_ns))
             (vsub (mv (m_data A_ex) x_ns) b_ex) None)
          (mkKKTSolution [qc 0; qc 0] [qc 0] None) = true /\
  _make_eq_qp_optimality_fun DenseLinearOperator DenseLinearOperator
    (mkKKTSolution x_ns lam_ns None) (Q_ns, c_ex) (A_ex, b_ex)
  <> Some (mkKKTSolution
             (vadd (vadd (mv (m_data Q_ns) x_ns) c_ex)
                   (mv (transpose_rows (m_cols A_ex) (m_data A_ex)) lam_ns))
             (vsub (mv (m_data A_ex) x_ns) b_ex) None) /\
  option_map (fun r => kkt_eqb r (mkKKTSolution [qc 0; Q2Qc (1 # 2)] [qc 0] None))
    (_make_eq_qp_optimality_fun DenseLinearOperator DenseLinearOperator
       (mkKKTSolution x_ns lam_ns None) (Q_ns, c_ex) (A_ex, b_ex)) = Some true.
Proof.
  split; [vm_compute; reflexivity|]; split; [|vm_compute; reflexivity].
  intro H.
  apply (f_equal (option_map (fun r => kkt_eqb r (mkKKTSolution [qc 0; qc 0] [qc 0] None)))) in H.
  vm_compute in H; discriminate H.
Qed.

(** ** C2: the saddle-point operator *)

(** C2. For any operators [Q] and [A] and any KKT pair [(pu, du)] on which
    [Q(pu)], [A(pu)] and [Aᵀ(du)] are defined and [Q(pu) + Aᵀ(du)] is
    well-shaped, the inner [matvec] of [run] makes exactly one
    [matvec_and_rmatvec] call on [A] and then one [matvec] call on [Q], and
    returns [(Q(pu) + Aᵀ(du), A(pu))]; whatever the dual input [du'], a
    successful call returns [A(pu)] as its dual component. *)
Theorem saddle_matvec_calls (Q A : LinearOperator) (pu du q a r : vec) :
  lo_matvec Q pu = Some q -> lo_matvec A pu = Some a ->
  lo_vjp A pu du = Some r -> length q = length r ->
  saddle_matvec Q A (pu, du)
  = ([EvMatvecAndRmatvec "A" pu du; EvMatvec "Q" pu], inr (vadd q r, a))
  /\ (forall du' res, snd (saddle_matvec Q A (pu, du')) = inr res -> snd res = a).
Proof.
  intros Hq Ha Hr Hl; split.
  - unfold saddle_matvec, call_matvec_and_rmatvec, call_matvec,
      matvec_and_rmatvec, tree_add, mbind, tell, lift, ret; simpl.
    rewrite Ha; simpl; rewrite Hr; simpl; rewrite Hq; simpl.
    rewrite Hl, Nat.eqb_refl; reflexivity.
  - intros du' res; unfold saddle_matvec, call_matvec_and_rmatvec, call_matvec,
      matvec_and_rmatvec, mbind, tell, lift, ret, raise; simpl.
    rewrite Ha; simpl.
    destruct (lo_vjp A pu du') as [r'|]; simpl; [|discriminate].
    rewrite Hq; simpl.
    destruct (tree_add q r'); simpl; [|discriminate].
    intro H; inversion H; reflexivity.
Qed.

Lemma saddle_matvec_calls_witness :
  saddle_matvec (DenseLinearOperator Q_ex) (DenseLinearOperator A_ex)
    ([qc 1; qc 2], [qc 3])
  = ([EvMatvecAndRmatvec "A" [qc 1; qc 2] [qc 3]; EvMatvec "Q" [qc 1; qc 2]],
     inr (vadd [qc 2; qc 4] [qc 3; qc 3], [qc 3])).
Proof.
  exact (proj1 (@saddle_matvec_calls (DenseLinearOperator Q_ex) (DenseLinearOperator A_ex)
                  [qc 1; qc 2] [qc 3] [qc 2; qc 4] [qc 3] [qc 3; qc 3]
                  ltac:(vm_compute; reflexivity) ltac:(vm_compute; reflexivity)
                  ltac:(vm_compute; reflexivity) eq_refl)).
Defined.

(** ** C3: the orchestration of [run] *)

Lemma check_params_log po pe : fst (_check_params po pe) = [EvValidate].
Proof.
  destruct po as [Q c], pe as [A b]; unfold _check_params, mbind, tell; simpl.
  destruct (negb (Nat.eqb (length c) (m_cols Q))); simpl; [reflexivity|].
  destruct (negb (Nat.eqb (length b) (m_rows A))); reflexivity.
Qed.

(** C3. When validation is off or passes, [run] builds [Q] and [A] from
    their raw parameters, calls the configured solver once on the
    saddle-point operator with right-hand side [(-c, b)] and the configured
    [tol] and [maxiter], and returns the solver's pair [(primal, dual_eq)] as
    [KKTSolution(primal, dual_eq, None)]; an exception of the solver is
    passed on. *)
Theorem run_orchestration (self : EqQPObject) (init : option KKTSolution)
    (pQ pA : Mat) (c b : vec) :
  (self_check_params self = true -> snd (_check_params (pQ, c) (pA, b)) = inr tt) ->
  run self init (pQ, c) (pA, b)
  = let sol := self_solve self
                 (saddle_matvec (self_matvec_Q self pQ) (self_matvec_A self pA))
                 (tree_negative c, b) (self_tol self) (self_maxiter self) in
    ((if self_check_params self then [EvValidate] else []) ++
     [EvMakeOperator "Q"; EvMakeOperator "A"; EvSolve (self_tol self) (self_maxiter self)]
     ++ fst sol,
     match snd sol with
     | inl e => inl e
     | inr (p, d) => inr (mkOptStep (mkKKTSolution p d None) None)
     end).
Proof.
  intro Hchk; unfold run.
  set (sol := self_solve self _ _ _ _).
  assert (Hrest : forall l, mbind (l, inr tt) (fun _ =>
      let! Q := make_operator "Q" (self_matvec_Q self) pQ in
      let! A := make_operator "A" (self_matvec_A self) pA in
      let! _ := tell [EvSolve (self_tol self) (self_maxiter self)] in
      let! sol0 := self_solve self (saddle_matvec Q A) (tree_negative c, b)
                     (self_tol self) (self_maxiter self) in
      let (primal, dual_eq) := sol0 in
      ret (mkOptStep (mkKKTSolution primal dual_eq None) None))
    = (l ++ [EvMakeOperator "Q"; EvMakeOperator "A";
             EvSolve (self_tol self) (self_maxiter self)] ++ fst sol,
       match snd sol with
       | inl e => inl e
       | inr (p, d) => inr (mkOptStep (mkKKTSolution p d None) None)
       end)).
  { intro l; unfold mbind, make_operator, tell, ret; simpl; fold sol.
    destruct sol as [ls [e|[p d]]]; simpl; rewrite ?app_nil_r; reflexivity. }
  destruct (self_check_params self) eqn:E.
  - rewrite <- (Hrest [EvValidate]).
    rewrite <- (check_params_log (pQ, c) (pA, b)), <- (Hchk eq_refl).
    destruct (_check_params (pQ, c) (pA, b)); reflexivity.
  - exact (Hrest []).
Qed.

Lemma run_orchestration_witness :
  run (__post_init__ default_cfg) None (Q_ex, c_ex) (A_ex, b_ex)
  = let self := __post_init__ default_cfg in
    let sol := self_solve self
                 (saddle_matvec (self_matvec_Q self Q_ex) (self_matvec_A self A_ex))
                 (tree_negative c_ex, b_ex) (self_tol self) (self_maxiter self) in
    ((if self_check_params self then [EvValidate] else []) ++
     [EvMakeOperator "Q"; EvMakeOperator "A"; EvSolve (self_tol self) (self_maxiter self)]
     ++ fst sol,
     match snd sol with
     | inl e => inl e
     | inr (p, d) => inr (mkOptStep (mkKKTSolution p d None) None)
     end).
Proof.
  apply run_orchestration; intros _; vm_compute; reflexivity.
Defined.

(** ** C4: self-adjointness of the saddle-point operator *)

Lemma is_symmetric_square Q : is_symmetric Q = true -> m_rows Q = m_cols Q.
Proof.
  unfold is_symmetric; intro H; apply andb_prop in H as [H _].
  apply Nat.eqb_eq in H; rewrite <- H; apply length_transpose_rows, m_wf.
Qed.

(** A successful call of the saddle-point operator on dense matrices. *)
Lemma dense_saddle_matvec_ok (Q A : Mat) (p1 p2 : vec) mp :
  snd (saddle_matvec (DenseLinearOperator Q) (DenseLinearOperator A) (p1, p2))
    = inr mp ->
  length p1 = m_cols A /\ length p1 = m_cols Q /\ length p2 = m_rows A /\
  m_rows Q = m_cols A /\
  mp = (vadd (mv (m_data Q) p1) (mv (transpose_rows (m_cols A) (m_data A)) p2),
        mv (m_data A) p1).
Proof.
  pose proof (length_transpose_rows _ _ (m_wf A)) as HAt.
  unfold saddle_matvec, call_matvec_and_rmatvec, call_matvec, matvec_and_rmatvec,
    mbind, tell, lift, ret, raise; simpl.
  unfold dense_matvec, dense_rmatvec, tree_add.
  destruct (Nat.eqb (length p1) (m_cols A)) eqn:E1; simpl; [|discriminate].
  destruct (Nat.eqb (length p2) (m_rows A)) eqn:E2; simpl; [|discriminate].
  destruct (Nat.eqb (length p1) (m_cols Q)) eqn:E3; simpl; [|discriminate].
  rewrite length_mv, length_mv.
  destruct (Nat.eqb (length (m_data Q)) (length (transpose_rows (m_cols A) (m_data A))))
    eqn:E4; simpl; [|discriminate].
  apply Nat.eqb_eq in E1, E2, E3, E4; unfold m_rows.
  intro H; inversion H; subst; repeat split; auto; lia.
Qed.

(** A successful call of the saddle-point operator on any two operators. *)
Lemma saddle_matvec_ok (Q A : LinearOperator) (p1 p2 : vec) mp :
  snd (saddle_matvec Q A (p1, p2)) = inr mp ->
  exists qp ap rp, lo_matvec Q p1 = Some qp /\ lo_matvec A p1 = Some ap /\
    lo_vjp A p1 p2 = Some rp /\ length qp = length rp /\ mp = (vadd qp rp, ap).
Proof.
  unfold saddle_matvec, call_matvec_and_rmatvec, call_matvec,
    matvec_and_rmatvec, tree_add, mbind, tell, lift, ret, raise; simpl.
  destruct (lo_matvec A p1) as [ap|] eqn:Ea; simpl; [|discriminate].
  destruct (lo_vjp A p1 p2) as [rp|] eqn:Er; simpl; [|discriminate].
  destruct (lo_matvec Q p1) as [qp|] eqn:Eq; simpl; [|discriminate].
  destruct (Nat.eqb (length qp) (length rp)) eqn:El; simpl; [|discriminate].
  intro H; inversion H; subst; apply Nat.eqb_eq in El.
  exists qp, ap, rp; repeat split; assumption.
Qed.

(** The dense operator of a symmetric matrix is self-adjoint, maps its
    domain to itself, and has a fixed domain. *)
Lemma dense_op_self_adjoint (M : Mat) :
  is_symmetric M = true ->
  forall u v qu qv, lo_matvec (DenseLinearOperator M) u = Some qu ->
    lo_matvec (DenseLinearOperator M) v = Some qv -> vdot qu v = vdot u qv.
Proof.
  intros Hs u v qu qv; simpl; unfold dense_matvec.
  destruct (Nat.eqb (length u) (m_cols M)) eqn:Eu; [|discriminate].
  destruct (Nat.eqb (length v) (m_cols M)) eqn:Ev; [|discriminate].
  intros H1 H2; inversion H1; inversion H2; subst.
  apply Nat.eqb_eq in Eu, Ev.
  pose proof (is_symmetric_square M Hs) as Hsq; unfold m_rows in Hsq.
  rewrite (@vdot_mv_transpose (m_cols M) (m_data M) u v (m_wf M)) by lia.
  rewrite (is_symmetric_transpose M Hs); reflexivity.
Qed.

Lemma dense_op_domain (M : Mat) :
  forall u v qu qv, lo_matvec (DenseLinearOperator M) u = Some qu ->
    lo_matvec (DenseLinearOperator M) v = Some qv -> length u = length v.
Proof.
  intros u v qu qv; simpl; unfold dense_matvec.
  destruct (Nat.eqb (length u) (m_cols M)) eqn:Eu; [|discriminate].
  destruct (Nat.eqb (length v) (m_cols M)) eqn:Ev; [|discriminate].
  apply Nat.eqb_eq in Eu, Ev; congruence.
Qed.

Lemma dense_op_square (M : Mat) :
  m_rows M = m_cols M ->
  forall u qu, lo_matvec (DenseLinearOperator M) u = Some qu -> length qu = length u.
Proof.
  intros Hsq u qu; simpl; unfold dense_matvec.
  destruct (Nat.eqb (length u) (m_cols M)) eqn:Eu; [|discriminate].
  intro H; inversion H; subst; apply Nat.eqb_eq in Eu.
  rewrite length_mv; unfold m_rows in Hsq; lia.
Qed.

(** The pullback of the dense operator is its adjoint, takes cotangents in
    a fixed space, and that space is the space of its outputs. *)
Lemma dense_op_adjoint (M : Mat) :
  forall u w y au r, lo_matvec (DenseLinearOperator M) u = Some au ->
    lo_vjp (DenseLinearOperator M) w y = Some r -> vdot au y = vdot u r.
Proof.
  intros u w y au r; simpl; unfold dense_matvec, dense_rmatvec.
  destruct (Nat.eqb (length u) (m_cols M)) eqn:Eu; [|discriminate].
  destruct (Nat.eqb (length w) (m_cols M)); cbn [obind]; [|discriminate].
  destruct (Nat.eqb (length y) (m_rows M)) eqn:Ey; [|discriminate].
  intros H1 H2; inversion H1; inversion H2; subst.
  apply Nat.eqb_eq in Eu, Ey; unfold m_rows in Ey.
  apply (@vdot_mv_transpose (m_cols M) (m_data M) u y (m_wf M)); assumption.
Qed.

Lemma dense_op_codomain (M : Mat) :
  forall w y r w' y' r', lo_vjp (DenseLinearOperator M) w y = Some r ->
    lo_vjp (DenseLinearOperator M) w' y' = Some r' -> length y = length y'.
Proof.
  intros w y r w' y' r'; simpl; unfold dense_matvec, dense_rmatvec.
  destruct (Nat.eqb (length w) (m_cols M)); cbn [obind]; [|discriminate].
  destruct (Nat.eqb (length y) (m_rows M)) eqn:Ey; [|discriminate].
  destruct (Nat.eqb (length w') (m_cols M)); cbn [obind]; [|discriminate].
  destruct (Nat.eqb (length y') (m_rows M)) eqn:Ey'; [|discriminate].
  apply Nat.eqb_eq in Ey, Ey'; congruence.
Qed.

Lemma dense_op_cotangent (M : Mat) :
  forall w y aw r, lo_matvec (DenseLinearOperator M) w = Some aw ->
    lo_vjp (DenseLinearOperator M) w y = Some r -> length y = length aw.
Proof.
  intros w y aw r; simpl; unfold dense_matvec, dense_rmatvec.
  destruct (Nat.eqb (length w) (m_cols M)); cbn [obind]; [|discriminate].
  destruct (Nat.eqb (length y) (m_rows M)) eqn:Ey; [|discriminate].
  intros H1 _; inversion H1; subst; apply Nat.eqb_eq in Ey.
  rewrite length_mv; exact Ey.
Qed.

(** C4. When [Q] is self-adjoint (dense and symmetric, or a user-supplied
    matvec with that property) and the pullback of [A] is [A]'s adjoint,
    the saddle-point operator built inside [run] is self-adjoint for the
    tree inner product: for KKT points [p] and [q] on which it is defined,
    [<matvec(p), q> = <p, matvec(q)>]. The operators have fixed spaces:
    [Q] maps a fixed domain into itself, and the cotangents of [A] live in
    the fixed space of its outputs. *)
Theorem saddle_matvec_self_adjoint (Q A : LinearOperator) (p q mp mq : vec * vec) :
  (forall u v qu qv, lo_matvec Q u = Some qu -> lo_matvec Q v = Some qv ->
     vdot qu v = vdot u qv) ->
  (forall u v qu qv, lo_matvec Q u = Some qu -> lo_matvec Q v = Some qv ->
     length u = length v) ->
  (forall u qu, lo_matvec Q u = Some qu -> length qu = length u) ->
  (forall u w y au r, lo_matvec A u = Some au -> lo_vjp A w y = Some r ->
     vdot au y = vdot u r) ->
  (forall w y r w' y' r', lo_vjp A w y = Some r -> lo_vjp A w' y' = Some r' ->
     length y = length y') ->
  (forall w y aw r, lo_matvec A w = Some aw -> lo_vjp A w y = Some r ->
     length y = length aw) ->
  snd (saddle_matvec Q A p) = inr mp ->
  snd (saddle_matvec Q A q) = inr mq ->
  pair_vdot mp q = pair_vdot p mq.
Proof.
  intros HQsa HQdom HQsh HAadj HAcod HAcot Hp Hq.
  destruct p as [p1 p2], q as [q1 q2].
  apply saddle_matvec_ok in Hp as (qp & ap & rp & Hqp & Hap & Hrp & Hlp & ->).
  apply saddle_matvec_ok in Hq as (qq & aq & rq & Hqq & Haq & Hrq & Hlq & ->).
  pose proof (HQdom _ _ _ _ Hqp Hqq) as H1.
  pose proof (HQsh _ _ Hqp) as H2; pose proof (HQsh _ _ Hqq) as H3.
  pose proof (HAcod _ _ _ _ _ _ Hrp Hrq) as H4.
  pose proof (HAcot _ _ _ _ Hap Hrp) as H5; pose proof (HAcot _ _ _ _ Haq Hrq) as H6.
  unfold pair_vdot, tree_vdot; cbn [fst snd]; unfold vadd.
  rewrite !length_vzip_min.
  replace (Nat.eqb (Nat.min (length qp) (length rp)) (length q1)) with true
    by (symmetry; apply Nat.eqb_eq; lia).
  replace (Nat.eqb (length ap) (length q2)) with true
    by (symmetry; apply Nat.eqb_eq; lia).
  replace (Nat.eqb (length p1) (Nat.min (length qq) (length rq))) with true
    by (symmetry; apply Nat.eqb_eq; lia).
  replace (Nat.eqb (length p2) (length aq)) with true
    by (symmetry; apply Nat.eqb_eq; lia).
  cbn [obind]; f_equal; fold (vadd qp rp); fold (vadd qq rq).
  rewrite vdot_vadd_l, vdot_vadd_r by assumption.
  rewrite (HQsa _ _ _ _ Hqp Hqq).
  rewrite (HAadj _ _ _ _ _ Hap Hrq).
  rewrite (vdot_comm rp q1), <- (HAadj _ _ _ _ _ Haq Hrp), (vdot_comm aq p2).
  ring.
Qed.

(** [Q] through the user-supplied matvec [user_dense_matvec] at the
    symmetric [Q_ex], and [A] dense. *)
Lemma saddle_matvec_self_adjoint_witness :
  snd (saddle_matvec (FunctionalLinearOperator user_dense_matvec Q_ex)
         (DenseLinearOperator A_ex) ([qc 1; qc 2], [qc 3]))
    = inr ([qc 5; qc 7], [qc 3]) /\
  snd (saddle_matvec (FunctionalLinearOperator user_dense_matvec Q_ex)
         (DenseLinearOperator A_ex) ([qc (-1); qc 5], [qc 7]))
    = inr ([qc 5; qc 17], [qc 4]) /\
  pair_vdot ([qc 5; qc 7], [qc 3]) ([qc (-1); qc 5], [qc 7])
  = pair_vdot ([qc 1; qc 2], [qc 3]) ([qc 5; qc 17], [qc 4]).
Proof.
  split; [vm_compute; f_equal; reflexivity|].
  split; [vm_compute; reflexivity|].
  apply (@saddle_matvec_self_adjoint
           (FunctionalLinearOperator user_dense_matvec Q_ex) (DenseLinearOperator A_ex)).
  - intros u v qu qv; rewrite !user_dense_lo_matvec.
    apply dense_op_self_adjoint; vm_compute; reflexivity.
  - intros u v qu qv; rewrite !user_dense_lo_matvec; apply dense_op_domain.
  - intros u qu; rewrite user_dense_lo_matvec; apply dense_op_square; reflexivity.
  - apply dense_op_adjoint.
  - apply dense_op_codomain.
  - apply dense_op_cotangent.
  - vm_compute; f_equal; reflexivity.
  - vm_compute; reflexivity.
Defined.

(** ** C5: the L2 optimality error *)

Lemma sum_sq_app xs ys : sum_sq (xs ++ ys) = sum_sq xs + sum_sq ys.
Proof.
  induction xs as [|x xs IH]; simpl; [ring|]; rewrite IH; ring.
Qed.

Lemma sum_sq_concat ls :
  fold_right (fun l acc => sum_sq l + acc) 0 ls = sum_sq (concat ls).
Proof.
  induction ls as [|l ls IH]; simpl; [reflexivity|].
  rewrite IH, sum_sq_app; reflexivity.
Qed.

(** C5. [l2_optimality_error] is the Euclidean norm of the flattened
    residual returned by the optimality function (an exception of the
    optimality function is passed on), and it is non-negative. *)
Theorem l2_optimality_error_norm (self : EqQPObject) (p : KKTSolution)
    (po pe : Mat * vec) :
  l2_optimality_error self p po pe
  = option_map (fun r => sqrt (Q2R (this (sum_sq (concat (tree_leaves r))))))
      (self_optimality_fun self p po pe)
  /\ (forall v, l2_optimality_error self p po pe = Some v -> (0 <= v)%R).
Proof.
  unfold l2_optimality_error, tree_l2_norm; split.
  - destruct (self_optimality_fun self p po pe) as [r|]; cbn [obind option_map];
      [|reflexivity].
    rewrite sum_sq_concat; reflexivity.
  - intros v; destruct (self_optimality_fun self p po pe) as [r|];
      cbn [obind]; [|discriminate].
    intro H; inversion H; apply sqrt_pos.
Qed.

Lemma l2_optimality_error_norm_witness :
  l2_optimality_error (__post_init__ default_cfg)
    (mkKKTSolution [qc 1; qc 0] [qc 0] None) (Q_ex, c_ex) (A_ex, b_ex)
  = Some (sqrt (Q2R (this (sum_sq [qc 2; qc 0; qc 0])))).

Proof.
  rewrite (proj1 (l2_optimality_error_norm _ _ _ _)).
  vm_compute; reflexivity.
Defined.

(** ** C6: validation errors *)

(** C6. With validation enabled, when [c] does not fit the domain of [Q] or
    [b] does not fit the range of [A], [run] raises a [ShapeMismatch] naming
    the two shapes, and the only event before it is the validation: no
    operator is built and the solver is not called. *)
Theorem run_shape_mismatch (self : EqQPObject) (init : option KKTSolution)
    (Q A : Mat) (c b : vec) :
  self_check_params self = true ->
  length c <> m_cols Q \/ length b <> m_rows A ->
  run self init (Q, c) (A, b)
  = ([EvValidate],
     inl (if Nat.eqb (length c) (m_cols Q)
          then ShapeMismatch "A.shape[0] != b.shape[0]" (m_rows A) (length b)
          else ShapeMismatch "Q.shape[1] != c.shape[0]" (m_cols Q) (length c))).
Proof.
  intros Hchk Hmis; unfold run; rewrite Hchk.
  unfold _check_params, mbind, tell, raise, ret; simpl.
  destruct (Nat.eqb (length c) (m_cols Q)) eqn:E1; simpl; [|reflexivity].
  apply Nat.eqb_eq in E1.
  destruct (Nat.eqb (length b) (m_rows A)) eqn:E2; simpl; [|reflexivity].
  apply Nat.eqb_eq in E2; lia.
Qed.

(** c has 3 components while Q acts on 2-vectors. *)
Lemma run_shape_mismatch_witness :
  run (__post_init__ default_cfg) None (Q_ex, [qc 0; qc 0; qc 0]) (A_ex, b_ex)
  = ([EvValidate], inl (ShapeMismatch "Q.shape[1] != c.shape[0]" 2 3)).
Proof.
  apply (run_shape_mismatch (__post_init__ default_cfg) None Q_ex A_ex
           [qc 0; qc 0; qc 0] b_ex eq_refl).
  left; simpl; lia.
Defined.

(** ** C7: the residual has the shape of the KKT point *)

(** The pullback of every operator [_make_linear_operator] builds returns a
    cotangent of the primal's shape, and accepts only cotangents of the
    output's shape. *)
Lemma make_linear_operator_vjp_shape (mv0 : option UserMatvec) (p : Mat) x y r :
  lo_vjp (_make_linear_operator mv0 p) x y = Some r ->
  length r = length x.
Proof.
  destruct mv0 as [um|]; simpl.
  - destruct (um_fun um p x) as [fx|]; simpl; [|discriminate].
    destruct (Nat.eqb (length y) (length fx)); [|discriminate].
    apply um_vjp_shape.
  - unfold dense_matvec, dense_rmatvec.
    destruct (Nat.eqb (length x) (m_cols p)) eqn:E1; simpl; [|discriminate].
    destruct (Nat.eqb (length y) (m_rows p)); [|discriminate].
    intro H; inversion H; subst.
    rewrite length_mv, length_transpose_rows by apply m_wf.
    apply Nat.eqb_eq in E1; lia.
Qed.

Section Shape.

Variables mQ mA : Mat -> LinearOperator.
Hypothesis mA_vjp_shape :
  forall p x y r, lo_vjp (mA p) x y = Some r -> length r = length x.

Lemma optimality_fun_shape_gen (params : KKTSolution) po pe r :
  optimality_fun mQ mA params po pe = Some r ->
  length (primal r) = length (primal params) /\
  length (dual_eq r) = length (dual_eq params) /\ dual_ineq r = None.
Proof.
  unfold optimality_fun, optimality_fun_with_ineq, eq_vjp.
  destruct (obj_grad mQ (primal params) po) as [st|]; cbn [obind]; [|discriminate].
  destruct (eq_fun mA (primal params) pe) as [pf|]; cbn [obind]; [|discriminate].
  destruct (Nat.eqb (length (dual_eq params)) (length pf)) eqn:E; [|discriminate].
  destruct (lo_vjp (mA (fst pe)) (primal params) (dual_eq params)) as [jt|] eqn:Ej;
    cbn [obind]; [|discriminate].
  apply mA_vjp_shape in Ej.
  unfold tree_add; destruct (Nat.eqb (length st) (length jt)) eqn:E2; [|discriminate].
  cbn [obind]; intro H; inversion H; subst; simpl.
  apply Nat.eqb_eq in E, E2; unfold vadd; rewrite length_vzip_min.
  repeat split; lia.
Qed.

End Shape.

(** C7. For every configuration, every KKT point
    [(primal_var, dual_var_eq, None)] and every problem instance, a residual
    returned by the optimality function has the shape of the point: a
    stationarity component of the primal's length, a feasibility component
    of the dual's length, and no inequality component. *)
Theorem optimality_fun_shape (cfg : EqualityConstrainedQP) (params : KKTSolution)
    (po pe : Mat * vec) (r : KKTSolution) :
  dual_ineq params = None ->
  self_optimality_fun (__post_init__ cfg) params po pe = Some r ->
  kkt_shape r = kkt_shape params.
Proof.
  intros Hn H; simpl in H.
  apply optimality_fun_shape_gen in H as (H1 & H2 & H3);
    [|apply make_linear_operator_vjp_shape].
  unfold kkt_shape; rewrite H1, H2, H3, Hn; reflexivity.
Qed.

Lemma optimality_fun_shape_witness :
  kkt_shape (match self_optimality_fun (__post_init__ default_cfg)
                     (mkKKTSolution [qc 1; qc 0] [qc 0] None) (Q_ex, c_ex) (A_ex, b_ex)
             with Some r => r | None => mkKKTSolution [] [] None end)
  = kkt_shape (mkKKTSolution [qc 1; qc 0] [qc 0] None).
Proof.
  apply (optimality_fun_shape default_cfg (mkKKTSolution [qc 1; qc 0] [qc 0] None)
           (Q_ex, c_ex) (A_ex, b_ex)); [reflexivity|].
  vm_compute; reflexivity.
Defined.

(** ** C8: no warm start *)

(** C8. [run] ignores [init_params]: for every value of it, the call log and
    the result are those of [run] with [init_params = None]. *)
Theorem run_ignores_init_params (self : EqQPObject) (init : option KKTSolution)
    (po pe : Mat * vec) :
  run self init po pe = run self None po pe.
Proof. reflexivity. Qed.

(** ** C9: repeated calls *)

Lemma call_method_self self c : fst (call_method self c) = self.
Proof. destruct c; reflexivity. Qed.

Lemma exec_self self cs : exec self cs = (self, map (result_of self) cs).
Proof.
  induction cs as [|c cs IH]; simpl; [reflexivity|].
  destruct (call_method self c) as [s' r] eqn:E.
  pose proof (call_method_self self c) as Hs; rewrite E in Hs; simpl in Hs; subst s'.
  rewrite IH; unfold result_of; rewrite E; reflexivity.
Qed.

(** C9. Calling [run] twice with the same arguments on one object, with any
    method calls in between, leaves the object unchanged and gives identical
    results (the same call log and the same solution). *)
Theorem run_twice_identical (self : EqQPObject) (init : option KKTSolution)
    (po pe : Mat * vec) (between : list method_call) :
  exec self (CallRun init po pe :: between ++ [CallRun init po pe])
  = (self, ResRun (run self init po pe) :: map (result_of self) between
             ++ [ResRun (run self init po pe)]).
Proof.
  rewrite exec_self; simpl; rewrite map_app; reflexivity.
Qed.

(** ** C10: when validation happens *)

(** C10. [run] validates its parameters (its first event is the validation)
    exactly when neither [matvec_Q] nor [matvec_A] was supplied; supplying
    one of them turns validation off for both operands. *)
Theorem validation_iff_default_matvecs (cfg : EqualityConstrainedQP)
    (init : option KKTSolution) (po pe : Mat * vec) :
  hd_error (fst (run (__post_init__ cfg) init po pe)) = Some EvValidate
  <-> matvec_Q cfg = None /\ matvec_A cfg = None.
Proof.
  destruct po as [Q c], pe as [A b].
  unfold run; simpl.
  destruct (matvec_Q cfg) as [uq|], (matvec_A cfg) as [ua|]; simpl;
    unfold mbind, make_operator, tell, ret; simpl;
    try (split; [discriminate | intros [H1 H2]; discriminate]).
  split; [intros _; auto|intros _].
  match goal with
  | |- context [match ?x with inl _ => _ | inr _ => _ end] => destruct x
  end; reflexivity.
Qed.

(** A custom [matvec_Q] with a dense [A]: [b] has two components while [A]
    has one row, and still no validation takes place. *)
Lemma validation_iff_default_matvecs_witness :
  hd_error (fst (run (__post_init__
                        (mkEqualityConstrainedQP (Some user_dense_matvec) None
                           solve_richardson 1 (Q2Qc (1 # 100000))))
                     None (Q_ex, c_ex) (A_ex, [qc 1; qc 1])))
  = Some (EvMakeOperator "Q")
  /\ ~ (hd_error (fst (run (__post_init__
                        (mkEqualityConstrainedQP (Some user_dense_matvec) None
                           solve_richardson 1 (Q2Qc (1 # 100000))))
                     None (Q_ex, c_ex) (A_ex, [qc 1; qc 1]))) = Some EvValidate).
Proof.
  split; [vm_compute; reflexivity|].
  rewrite validation_iff_default_matvecs; simpl; intros [H _]; discriminate H.
Defined.

(** ** Further properties of the code *)

(** *** Vector facts used below *)

Lemma vsub_self a : vsub a a = repeat 0 (length a).
Proof.
  induction a as [|a0 a IH]; [reflexivity|].
  unfold vsub in *; simpl; rewrite IH; f_equal; ring.
Qed.

Lemma Forall_zero_vsub a b :
  length a = length b -> (Forall (fun z => z = 0) (vsub a b) <-> a = b).
Proof.
  revert b; induction a as [|a0 a IH]; intros [|b0 b] H; simpl in *;
    try discriminate; [split; auto|].
  unfold vsub in *; simpl; rewrite Forall_cons_iff, IH by congruence.
  split.
  - intros [H1 ->]; f_equal.
    transitivity ((a0 - b0) + b0); [ring|rewrite H1; ring].
  - intro E; injection E as -> ->; split; [ring|reflexivity].
Qed.

Lemma vadd_zero_opp a e :
  length a = length e -> Forall (fun z => z = 0) (vadd a e) -> a = map Qcopp e.
Proof.
  revert e; induction a as [|a0 a IH]; intros [|e0 e] H; simpl in *;
    try discriminate; [reflexivity|].
  rewrite vadd_cons, Forall_cons_iff; intros [H1 H2]; f_equal.
  - transitivity ((a0 + e0) - e0); [ring|rewrite H1; ring].
  - apply IH; congruence.
Qed.

Lemma vdot_opp_l e d : vdot (map Qcopp e) d = - vdot e d.
Proof.
  revert d; induction e as [|e0 e IH]; intros [|d0 d]; simpl; try ring.
  rewrite IH; ring.
Qed.

Lemma vdot_vsub_r x a b :
  length a = length b -> vdot x (vsub a b) = vdot x a - vdot x b.
Proof.
  revert a b; induction x as [|x0 x IH]; intros [|a0 a] [|b0 b] H; simpl in *;
    try ring; try congruence.
  unfold vsub in *; simpl; rewrite IH by congruence; ring.
Qed.

Lemma vsub_cons x xs y ys : vsub (x :: xs) (y :: ys) = (x - y) :: vsub xs ys.
Proof. reflexivity. Qed.

Lemma mv_vsub rows a b :
  length a = length b -> mv rows (vsub a b) = vsub (mv rows a) (mv rows b).
Proof.
  intro H; unfold mv; induction rows as [|r rows IH]; [reflexivity|].
  rewrite !map_cons, vsub_cons; f_equal; [apply vdot_vsub_r, H | exact IH].
Qed.

Lemma vadd_vsub_one x y :
  length x = length y -> vadd x (vscale 1 (vsub y x)) = y.
Proof.
  revert y; induction x as [|x0 x IH]; intros [|y0 y] H; simpl in *;
    try discriminate; [reflexivity|].
  unfold vadd, vsub, vscale in *; simpl; f_equal; [ring|].
  apply IH; congruence.
Qed.

Lemma vadd_interchange a b c d :
  length a = length b -> length c = length d -> length a = length c ->
  vadd (vadd a b) (vadd c d) = vadd (vadd a c) (vadd b d).
Proof.
  revert b c d; induction a as [|a0 a IH]; intros [|b0 b] [|c0 c] [|d0 d] H1 H2 H3;
    simpl in *; try discriminate; [reflexivity|].
  rewrite !vadd_cons; f_equal; [ring|apply IH; congruence].
Qed.

(** The stationarity of an exact solution of the saddle-point system:
    [0.5 a + 0.5 t + c + e] with [a + e = -c] is [0.5 (t - a)]. *)
Lemma stationarity_exact a t c e :
  length a = length t -> length a = length c -> length a = length e ->
  vadd a e = map Qcopp c ->
  vadd (vadd (vadd (vscale half a) (vscale half t)) c) e = vscale half (vsub t a).
Proof.
  revert t c e; induction a as [|a0 a IH];
    intros [|t0 t] [|c0 c] [|e0 e] H1 H2 H3; simpl in *; try discriminate;
    [reflexivity|].
  rewrite vadd_cons; intro E.
  pose proof (f_equal (hd 0) E) as E1; pose proof (f_equal (@tl Qc) E) as E2.
  cbn [hd tl] in E1, E2.
  unfold vadd, vsub, vscale in *; cbn [vzip map]; f_equal.
  - assert (c0 = - (a0 + e0)) as -> by (rewrite E1; ring).
    assert (Hh : half + half = 1) by (rewrite <- half_two; ring).
    transitivity (half * (t0 - a0) + (half + half - 1) * a0); [ring|].
    rewrite Hh; ring.
  - apply IH; congruence.
Qed.

Lemma Qc_square_nonneg a : 0 <= a * a.
Proof.
  destruct (Qclt_le_dec a 0) as [H|H].
  - apply Qclt_le_weak, Qcopp_le_compat in H.
    replace (- 0) with 0 in H by ring.
    replace (a * a) with ((- a) * (- a)) by ring.
    replace 0 with (0 * (- a)) by ring.
    apply Qcmult_le_compat_r; exact H.
  - replace 0 with (0 * a) by ring; apply Qcmult_le_compat_r; exact H.
Qed.

(** Boolean checks of computed results, for the concrete instances. *)
Lemma inr_pair_eqb {E : Type} (s : E + (vec * vec)) (u w : vec) :
  match s with inr (a, b) => vec_eqb a u && vec_eqb b w | inl _ => false end = true ->
  s = inr (u, w).
Proof.
  destruct s as [e|[a b]]; [discriminate|].
  intro H; apply andb_prop in H as [H1 H2].
  apply vec_eqb_sound in H1, H2; subst; reflexivity.
Qed.

Lemma kkt_eqb_sound s t : kkt_eqb s t = true -> s = t.
Proof.
  destruct s as [p d i], t as [p' d' i']; unfold kkt_eqb; simpl.
  intro H; apply andb_prop in H as [H H3]; apply andb_prop in H as [H1 H2].
  apply vec_eqb_sound in H1, H2; subst.
  destruct i as [u|], i' as [u'|]; try discriminate; [|reflexivity].
  apply vec_eqb_sound in H3; subst; reflexivity.
Qed.

Lemma some_kkt_eqb (o : option KKTSolution) (t : KKTSolution) :
  match o with Some r => kkt_eqb r t | None => false end = true -> o = Some t.
Proof.
  destruct o as [r|]; [|discriminate].
  intro H; apply kkt_eqb_sound in H; subst; reflexivity.
Qed.

(** *** The saddle-point operator on dense matrices *)

Lemma dense_saddle_matvec_compute (Q A : Mat) (p1 p2 : vec) :
  length p1 = m_cols A -> length p1 = m_cols Q -> length p2 = m_rows A ->
  m_rows Q = m_cols A ->
  snd (saddle_matvec (DenseLinearOperator Q) (DenseLinearOperator A) (p1, p2))
  = inr (vadd (mv (m_data Q) p1) (mv (transpose_rows (m_cols A) (m_data A)) p2),
         mv (m_data A) p1).
Proof.
  intros H1 H2 H3 H4.
  pose proof (length_transpose_rows _ _ (m_wf A)) as HAt.
  unfold saddle_matvec, call_matvec_and_rmatvec, call_matvec, matvec_and_rmatvec,
    mbind, tell, lift, ret, raise; simpl.
  unfold dense_matvec, dense_rmatvec, tree_add.
  eqb_true; cbn [obind snd fst]; rewrite !length_mv; eqb_true; reflexivity.
Qed.

(** X1. The saddle-point operator on dense [Q] and [A] succeeds exactly when
    the shapes fit ([p1] in the domain of [Q] and of [A], [p2] in the range
    of [A], [Q] mapping into the domain of [A]), and then returns
    [(Q p1 + Aᵀ p2, A p1)]. *)
Theorem saddle_matvec_dense_defined (Q A : Mat) (p1 p2 : vec) (mp : vec * vec) :
  snd (saddle_matvec (DenseLinearOperator Q) (DenseLinearOperator A) (p1, p2))
    = inr mp
  <-> (length p1 = m_cols A /\ length p1 = m_cols Q /\ length p2 = m_rows A /\
       m_rows Q = m_cols A /\
       mp = (vadd (mv (m_data Q) p1) (mv (transpose_rows (m_cols A) (m_data A)) p2),
             mv (m_data A) p1)).
Proof.
  split; [apply dense_saddle_matvec_ok|].
  intros (H1 & H2 & H3 & H4 & ->); apply dense_saddle_matvec_compute; assumption.
Qed.

(** X2. When [A.matvec_and_rmatvec] fails on the input, the saddle-point
    operator raises right away: [Q] is never called and the only event is
    the call on [A]. *)
Theorem saddle_matvec_A_failure (Q A : LinearOperator) (pu du : vec) :
  matvec_and_rmatvec A pu du = None ->
  saddle_matvec Q A (pu, du)
  = ([EvMatvecAndRmatvec "A" pu du], inl (JaxShapeError "A")).
Proof.
  intro H; unfold saddle_matvec, call_matvec_and_rmatvec, mbind, tell, lift, raise;
    simpl; rewrite H; reflexivity.
Qed.

Lemma saddle_matvec_A_failure_witness :
  matvec_and_rmatvec (DenseLinearOperator A_ex) [qc 1; qc 2] [qc 1; qc 1] = None /\
  saddle_matvec (DenseLinearOperator Q_ex) (DenseLinearOperator A_ex)
    ([qc 1; qc 2], [qc 1; qc 1])
  = ([EvMatvecAndRmatvec "A" [qc 1; qc 2] [qc 1; qc 1]], inl (JaxShapeError "A")).
Proof.
  split; [vm_compute; reflexivity|].
  apply saddle_matvec_A_failure; vm_compute; reflexivity.
Defined.

(** X3. The saddle-point operator on dense [Q] and [A] is linear: on two
    inputs where it succeeds, it succeeds on every linear combination of
    them and returns the same combination of the two outputs. *)
Theorem saddle_matvec_linear (Q A : Mat) (u v mu mv' : vec * vec) (alpha beta : Qc) :
  snd (saddle_matvec (DenseLinearOperator Q) (DenseLinearOperator A) u) = inr mu ->
  snd (saddle_matvec (DenseLinearOperator Q) (DenseLinearOperator A) v) = inr mv' ->
  snd (saddle_matvec (DenseLinearOperator Q) (DenseLinearOperator A)
         (pair_axpby alpha u beta v))
  = inr (pair_axpby alpha mu beta mv').
Proof.
  destruct u as [u1 u2], v as [v1 v2]; intros Hu Hv.
  apply dense_saddle_matvec_ok in Hu as (Hu1 & Hu1' & Hu2 & HQA & ->).
  apply dense_saddle_matvec_ok in Hv as (Hv1 & Hv1' & Hv2 & _ & ->).
  pose proof (length_transpose_rows _ _ (m_wf A)) as HAt.
  unfold pair_axpby; cbn [fst snd].
  rewrite dense_saddle_matvec_compute; [|len..].
  f_equal; f_equal.
  - rewrite mv_vadd, mv_vadd, !mv_vscale, !vscale_vadd; [|len..].
    apply vadd_interchange; len.
  - rewrite mv_vadd, !mv_vscale; [reflexivity|len].
Qed.

Lemma saddle_matvec_linear_witness :
  snd (saddle_matvec (DenseLinearOperator Q_ex) (DenseLinearOperator A_ex)
         ([qc 1; qc 2], [qc 3])) = inr ([qc 5; qc 7], [qc 3]) /\
  snd (saddle_matvec (DenseLinearOperator Q_ex) (DenseLinearOperator A_ex)
         ([qc (-1); qc 5], [qc 7])) = inr ([qc 5; qc 17], [qc 4]) /\
  snd (saddle_matvec (DenseLinearOperator Q_ex) (DenseLinearOperator A_ex)
         (pair_axpby (qc 2) ([qc 1; qc 2], [qc 3]) (qc (-1)) ([qc (-1); qc 5], [qc 7])))
  = inr (pair_axpby (qc 2) ([qc 5; qc 7], [qc 3]) (qc (-1)) ([qc 5; qc 17], [qc 4])).
Proof.
  split; [vm_compute; reflexivity|].
  split; [vm_compute; reflexivity|].
  apply saddle_matvec_linear; vm_compute; reflexivity.
Defined.

Lemma exact_saddle_residual_gen (Q A : Mat) (p d c b : vec) :
  snd (saddle_matvec (DenseLinearOperator Q) (DenseLinearOperator A) (p, d))
    = inr (tree_negative c, b) ->
  _make_eq_qp_optimality_fun DenseLinearOperator DenseLinearOperator
    (mkKKTSolution p d None) (Q, c) (A, b)
  = Some (mkKKTSolution
            (vscale half (vsub (mv (transpose_rows (m_cols Q) (m_data Q)) p)
                               (mv (m_data Q) p)))
            (repeat 0 (length b)) None)
  /\ (is_symmetric Q = true ->
      _make_eq_qp_optimality_fun DenseLinearOperator DenseLinearOperator
        (mkKKTSolution p d None) (Q, c) (A, b)
      = Some (mkKKTSolution (repeat 0 (length p)) (repeat 0 (length b)) None)).
Proof.
  intro H; apply dense_saddle_matvec_ok in H as (H1 & H2 & H3 & H4 & E).
  pose proof (f_equal fst E) as Ec; pose proof (f_equal snd E) as Eb;
    simpl in Ec, Eb; clear E.
  pose proof (length_transpose_rows _ _ (m_wf Q)) as HQt.
  pose proof (length_transpose_rows _ _ (m_wf A)) as HAt.
  assert (Hc : length c = m_cols Q).
  { transitivity (length (tree_negative c)); [unfold tree_negative; rewrite length_map; reflexivity|].
    rewrite Ec; len. }
  assert (Hb : length b = m_rows A) by (rewrite Eb; len).
  assert (Hres : _make_eq_qp_optimality_fun DenseLinearOperator DenseLinearOperator
    (mkKKTSolution p d None) (Q, c) (A, b)
    = Some (mkKKTSolution
              (vscale half (vsub (mv (transpose_rows (m_cols Q) (m_data Q)) p)
                                 (mv (m_data Q) p)))
              (repeat 0 (length b)) None)).
  { rewrite dense_optimality_fun; [|len..].
    rewrite mv_vscale, stationarity_exact; [|len..|exact (eq_sym Ec)].
    rewrite Eb, vsub_self; reflexivity. }
  split; [exact Hres|].
  intro Hs; rewrite Hres, (is_symmetric_transpose Q Hs), vsub_self.
  do 3 f_equal; rewrite length_mv.
  replace (length (m_data Q)) with (length p) by (unfold m_rows in *; lia).
  clear; induction (length p) as [|n IH]; simpl; [reflexivity|].
  rewrite IH; f_equal; ring.
Qed.

(** X4. A pair [(p, d)] that the saddle-point operator of [run] (dense [Q]
    and [A]) maps exactly to the right-hand side [(-c, b)] that [run] passes
    to the solver is a zero of the feasibility residual, and its
    stationarity residual is [0.5 (Qᵀ p - Q p)]; when [Q] is symmetric the
    whole residual is zero. *)
Theorem exact_saddle_solution_residual (Q A : Mat) (p d c b : vec) :
  snd (saddle_matvec (DenseLinearOperator Q) (DenseLinearOperator A) (p, d))
    = inr (tree_negative c, b) ->
  _make_eq_qp_optimality_fun DenseLinearOperator DenseLinearOperator
    (mkKKTSolution p d None) (Q, c) (A, b)
  = Some (mkKKTSolution
            (vscale half (vsub (mv (transpose_rows (m_cols Q) (m_data Q)) p)
                               (mv (m_data Q) p)))
            (repeat 0 (length b)) None)
  /\ (is_symmetric Q = true ->
      _make_eq_qp_optimality_fun DenseLinearOperator DenseLinearOperator
        (mkKKTSolution p d None) (Q, c) (A, b)
      = Some (mkKKTSolution (repeat 0 (length p)) (repeat 0 (length b)) None)).
Proof. apply exact_saddle_residual_gen. Qed.

Lemma exact_saddle_solution_residual_witness :
  snd (saddle_matvec (DenseLinearOperator Q_ex) (DenseLinearOperator A_ex)
         ([half; half], [qc (-2)]))
    = inr (tree_negative [qc 1; qc 1], b_ex) /\
  _make_eq_qp_optimality_fun DenseLinearOperator DenseLinearOperator
    (mkKKTSolution [half; half] [qc (-2)] None) (Q_ex, [qc 1; qc 1]) (A_ex, b_ex)
  = Some (mkKKTSolution (repeat 0 (length [half; half])) (repeat 0 (length b_ex)) None).
Proof.
  split; [apply inr_pair_eqb; vm_compute; reflexivity|].
  apply (proj2 (@exact_saddle_solution_residual Q_ex A_ex [half; half] [qc (-2)]
                  [qc 1; qc 1] b_ex
                  ltac:(apply inr_pair_eqb; vm_compute; reflexivity))).
  vm_compute; reflexivity.
Defined.

(** *** The L2 optimality error *)

Lemma Q2R_this_plus (x y : Qc) : Q2R (this (x + y)) = (Q2R (this x) + Q2R (this y))%R.
Proof.
  unfold Qcplus, Q2Qc; cbn [this]; rewrite (Qeq_eqR _ _ (Qred_correct _)); apply Q2R_plus.
Qed.

Lemma Q2R_this_mult (x y : Qc) : Q2R (this (x * y)) = (Q2R (this x) * Q2R (this y))%R.
Proof.
  unfold Qcmult, Q2Qc; cbn [this]; rewrite (Qeq_eqR _ _ (Qred_correct _)); apply Q2R_mult.
Qed.

Lemma Q2R_this_zero_iff (x : Qc) : Q2R (this x) = 0%R <-> x = 0.
Proof.
  split.
  - intro H; apply Qc_is_canon, eqR_Qeq; rewrite H; unfold Q2R; simpl; ring.
  - intros ->; unfold Q2R; simpl; ring.
Qed.

Lemma sum_sq_nonneg ys : (0 <= Q2R (this (sum_sq ys)))%R.
Proof.
  induction ys as [|y ys IH].
  - unfold Q2R; simpl; apply Req_le; ring.
  - change (sum_sq (y :: ys)) with (y * y + sum_sq ys).
    rewrite Q2R_this_plus, Q2R_this_mult.
    apply Rplus_le_le_0_compat; [apply Rle_0_sqr|exact IH].
Qed.

(** The sum of squares, in the reals, vanishes exactly when every entry is zero. *)
Lemma sum_sq_zero_iff xs :
  Q2R (this (sum_sq xs)) = 0%R <-> Forall (fun z => z = 0) xs.
Proof.
  induction xs as [|x xs IH].
  - split; [constructor|intros _; unfold Q2R; simpl; ring].
  - change (sum_sq (x :: xs)) with (x * x + sum_sq xs).
    rewrite Q2R_this_plus, Q2R_this_mult, Forall_cons_iff, <- IH.
    split.
    + intro H; apply Rplus_eq_R0 in H as [H1 H2]; [|apply Rle_0_sqr|apply sum_sq_nonneg].
      split; [apply Q2R_this_zero_iff, Rsqr_0_uniq, H1|exact H2].
    + intros [H0 H]; apply Q2R_this_zero_iff in H0; rewrite H0, H; ring.
Qed.

(** X5. The L2 optimality error is zero exactly when every component of the
    residual returned by the optimality function is zero. *)
Theorem l2_optimality_error_zero_iff (self : EqQPObject) (p : KKTSolution)
    (po pe : Mat * vec) (v : R) :
  l2_optimality_error self p po pe = Some v ->
  (v = 0%R <-> exists r, self_optimality_fun self p po pe = Some r /\
                         Forall (fun z => z = 0) (concat (tree_leaves r))).
Proof.
  unfold l2_optimality_error, tree_l2_norm.
  destruct (self_optimality_fun self p po pe) as [r|]; cbn [obind]; [|discriminate].
  rewrite sum_sq_concat.
  intro H; assert (Hv : v = sqrt (Q2R (this (sum_sq (concat (tree_leaves r))))))
    by congruence; subst v; clear H.
  split.
  - intro H; exists r; split; [reflexivity|].
    apply sum_sq_zero_iff, sqrt_eq_0; [apply sum_sq_nonneg|exact H].
  - intros (r' & E & H); assert (r' = r) as -> by congruence.
    apply sum_sq_zero_iff in H; rewrite H; apply sqrt_0.
Qed.

Lemma l2_optimality_error_zero_iff_witness :
  l2_optimality_error (__post_init__ default_cfg)
    (mkKKTSolution [half; half] [qc (-1)] None) (Q_ex, c_ex) (A_ex, b_ex)
    = Some (sqrt (Q2R (this (sum_sq [qc 0; qc 0; qc 0])))) /\
  sqrt (Q2R (this (sum_sq [qc 0; qc 0; qc 0]))) = 0%R.
Proof.
  assert (H : l2_optimality_error (__post_init__ default_cfg)
                (mkKKTSolution [half; half] [qc (-1)] None) (Q_ex, c_ex) (A_ex, b_ex)
              = Some (sqrt (Q2R (this (sum_sq [qc 0; qc 0; qc 0]))))).
  { vm_compute; reflexivity. }
  split; [exact H|].
  apply (proj2 (l2_optimality_error_zero_iff _ _ _ _ H)).
  exists (mkKKTSolution [qc 0; qc 0] [qc 0] None); split; [vm_compute; reflexivity|].
  repeat constructor.
Defined.

(** *** Feasibility and the shape contract of the optimality function *)

Lemma dense_eq_fun (A : Mat) (x b : vec) (e : vec) :
  eq_fun DenseLinearOperator x (A, b) = Some e ->
  length x = m_cols A /\ length b = m_rows A /\ e = vsub (mv (m_data A) x) b.
Proof.
  unfold eq_fun, tree_sub; simpl; unfold dense_matvec.
  destruct (Nat.eqb (length x) (m_cols A)) eqn:E1; cbn [obind]; [|discriminate].
  destruct (Nat.eqb (length (mv (m_data A) x)) (length b)) eqn:E2; [|discriminate].
  intro H; injection H as <-; apply Nat.eqb_eq in E1, E2.
  rewrite length_mv in E2; unfold m_rows; repeat split; auto.
Qed.

(** X6. For [b] in the range of the dense [A], the equality-constraint
    residual [eq_fun] vanishes exactly on the constraint set [A x = b]. *)
Theorem eq_fun_zero_iff_feasible (A : Mat) (x b e : vec) :
  length b = m_rows A ->
  eq_fun DenseLinearOperator x (A, b) = Some e ->
  (Forall (fun z => z = 0) e <-> mv (m_data A) x = b).
Proof.
  intros _ H; apply dense_eq_fun in H as (H1 & H2 & ->).
  apply Forall_zero_vsub; len.
Qed.

Lemma eq_fun_zero_iff_feasible_witness :
  length b_ex = m_rows A_ex /\
  eq_fun DenseLinearOperator [qc 3; qc (-2)] (A_ex, b_ex) = Some [qc 0] /\
  mv (m_data A_ex) [qc 3; qc (-2)] = b_ex.
Proof.
  assert (H : eq_fun DenseLinearOperator [qc 3; qc (-2)] (A_ex, b_ex) = Some [qc 0]).
  { vm_compute; reflexivity. }
  split; [reflexivity|].
  split; [exact H|].
  apply (eq_fun_zero_iff_feasible A_ex [qc 3; qc (-2)] b_ex eq_refl H); repeat constructor.
Defined.

Ltac eqb_cases :=
  repeat match goal with
  | |- context [Nat.eqb ?a ?b] =>
      let E := fresh "E" in
      destruct (Nat.eqb a b) eqn:E; cbn [obind] in *; [|discriminate]
  end.

(** The optimality function on dense operators succeeds only on
    well-shaped problems. *)
Lemma optimality_fun_dense_shapes (Q A : Mat) (x lam c b : vec) r :
  _make_eq_qp_optimality_fun DenseLinearOperator DenseLinearOperator
    (mkKKTSolution x lam None) (Q, c) (A, b) = Some r ->
  m_rows Q = m_cols Q /\ m_cols A = m_cols Q /\
  length x = m_cols Q /\ length c = m_cols Q /\
  length lam = m_rows A /\ length b = m_rows A.
Proof.
  pose proof (length_transpose_rows _ _ (m_wf Q)) as HQt.
  pose proof (length_transpose_rows _ _ (m_wf A)) as HAt.
  unfold _make_eq_qp_optimality_fun, optimality_fun, optimality_fun_with_ineq,
    obj_grad, obj_fun, eq_vjp, eq_fun; simpl.
  unfold dense_matvec, dense_rmatvec, tree_vdot, tree_add, tree_sub,
    tree_scalar_mul.
  eqb_cases; intros _.
  repeat match goal with H : Nat.eqb _ _ = true |- _ => apply Nat.eqb_eq in H end.
  unfold vadd, vsub, m_rows in *;
    repeat (rewrite ?length_vzip_min, ?length_vscale, ?length_mv, ?length_map in *).
  repeat split; lia.
Qed.

(** *** What a zero residual means *)

Lemma half_nonneg : 0 <= half.
Proof. apply Qcle_alt; vm_compute; discriminate. Qed.

(** X8. For a dense [Q] whose quadratic form is non-negative
    ([<d, Q d> >= 0]), a point [(x, lambda)] at which the optimality
    function returns an all-zero residual minimises the objective [obj_fun]
    over the constraint set: every [y] with a zero [eq_fun] residual has an
    objective value at least that of [x]. [Q] need not be symmetric. *)
Theorem zero_residual_minimizer (Q A : Mat) (x lam c b y e : vec) (r : KKTSolution) :
  (forall d, length d = m_cols Q -> 0 <= vdot d (mv (m_data Q) d)) ->
  _make_eq_qp_optimality_fun DenseLinearOperator DenseLinearOperator
    (mkKKTSolution x lam None) (Q, c) (A, b) = Some r ->
  Forall (fun z => z = 0) (primal r) -> Forall (fun z => z = 0) (dual_eq r) ->
  eq_fun DenseLinearOperator y (A, b) = Some e -> Forall (fun z => z = 0) e ->
  exists fx fy, obj_fun DenseLinearOperator x (Q, c) = Some fx /\
                obj_fun DenseLinearOperator y (Q, c) = Some fy /\ fx <= fy.
Proof.
  intros Hpsd Hr Hst Hfe Hy He.
  destruct (@optimality_fun_dense_shapes Q A x lam c b r Hr)
    as (H1 & H2 & H3 & H4 & H5 & H6).
  rewrite dense_optimality_fun in Hr by assumption.
  assert (Hr' : r = mkKKTSolution
            (vadd (vadd (vadd (vscale half (mv (m_data Q) x))
                              (mv (transpose_rows (m_cols Q) (m_data Q)) (vscale half x)))
                        c)
                  (mv (transpose_rows (m_cols A) (m_data A)) lam))
            (vsub (mv (m_data A) x) b) None) by congruence.
  subst r; cbn [primal dual_eq] in Hst, Hfe; clear Hr.
  pose proof (length_transpose_rows _ _ (m_wf Q)) as HQt.
  pose proof (length_transpose_rows _ _ (m_wf A)) as HAt.
  apply dense_eq_fun in Hy as (Hy1 & Hy2 & ->).
  apply Forall_zero_vsub in He; [|len].
  apply Forall_zero_vsub in Hfe; [|len].
  apply vadd_zero_opp in Hst; [|len].
  set (g := vadd (vadd (vscale half (mv (m_data Q) x))
                       (mv (transpose_rows (m_cols Q) (m_data Q)) (vscale half x))) c)
    in Hst.
  exists (half * vdot x (mv (m_data Q) x) + vdot x c).
  exists ((half * vdot x (mv (m_data Q) x) + vdot x c)
          + 1 * vdot g (vsub y x)
          + 1 * 1 * (half * vdot (vsub y x) (mv (m_data Q) (vsub y x)))).
  split; [apply dense_obj_fun; assumption|].
  split.
  - rewrite <- (vadd_vsub_one x y) at 1; [|len].
    apply obj_fun_along; len.
  - assert (Hg : vdot g (vsub y x) = 0).
    { rewrite Hst, vdot_opp_l, vdot_comm.
      rewrite <- (@vdot_mv_transpose (m_cols A) (m_data A) (vsub y x) lam (m_wf A));
        [|len..].
      rewrite mv_vsub, He, Hfe, vsub_self, vdot_comm, vdot_repeat_zero_r; [ring|len]. }
    rewrite Hg; apply Qcle_minus_iff.
    set (q := vdot (vsub y x) (mv (m_data Q) (vsub y x))).
    match goal with |- 0 <= ?t => replace t with (half * q) by ring end.
    replace 0 with (0 * q) by ring.
    apply Qcmult_le_compat_r; [apply half_nonneg|apply Hpsd; len].
Qed.

(** [Q_ex = 2 I] has a non-negative quadratic form. *)
Lemma Q_ex_psd d : length d = m_cols Q_ex -> 0 <= vdot d (mv (m_data Q_ex) d).
Proof.
  intro H; destruct d as [|d1 [|d2 [|d3 d]]]; try discriminate.
  cbn [m_data Q_ex mv map vdot].
  replace (qc 0) with 0 by (apply Qc_is_canon; reflexivity).
  assert (Hq : forall z, 0 <= qc 2 * (z * z)).
  { intro z; replace 0 with (0 * (z * z)) by ring.
    apply Qcmult_le_compat_r; [apply Qcle_alt; vm_compute; discriminate|].
    apply Qc_square_nonneg. }
  match goal with |- 0 <= ?t =>
    replace t with (qc 2 * (d1 * d1) + qc 2 * (d2 * d2)) by ring end.
  replace 0 with (0 + 0) by ring; apply Qcplus_le_compat; apply Hq.
Qed.

(** At [x = [1/2, 1/2]], [lambda = [-1]] the residual of the example problem
    is zero; the feasible point [y = [3, -2]] has a larger objective. *)
Lemma zero_residual_minimizer_witness :
  exists fx fy, obj_fun DenseLinearOperator [half; half] (Q_ex, c_ex) = Some fx /\
                obj_fun DenseLinearOperator [qc 3; qc (-2)] (Q_ex, c_ex) = Some fy /\
                fx <= fy.
Proof.
  apply (@zero_residual_minimizer Q_ex A_ex [half; half] [qc (-1)] c_ex b_ex
           [qc 3; qc (-2)] [qc 0] (mkKKTSolution [qc 0; qc 0] [qc 0] None)).
  - apply Q_ex_psd.
  - apply some_kkt_eqb; vm_compute; reflexivity.
  - repeat constructor.
  - repeat constructor.
  - vm_compute; reflexivity.
  - repeat constructor.
Defined.

(** *** The gradient behind the stationarity residual *)

(** X9. Along any direction [d], [obj_fun (x + t d) = obj_fun x + t <g, d> +
    t² (0.5 <d, Q d>)] where [g] is the objective gradient [obj_grad x]
    that the stationarity residual adds to [Aᵀ lambda]: [g] is the
    derivative of [obj_fun], for any square dense [Q]. *)
Theorem obj_grad_derivative (Q : Mat) (x d c : vec) (t : Qc) :
  m_rows Q = m_cols Q -> length x = m_cols Q -> length d = m_cols Q ->
  length c = m_cols Q ->
  exists f g,
    obj_fun DenseLinearOperator x (Q, c) = Some f /\
    obj_grad DenseLinearOperator x (Q, c) = Some g /\
    obj_fun DenseLinearOperator (vadd x (vscale t d)) (Q, c)
    = Some (f + t * vdot g d + t * t * (half * vdot d (mv (m_data Q) d))).
Proof.
  intros HQ Hx Hd Hc.
  do 2 eexists; split; [apply dense_obj_fun; assumption|].
  split; [apply dense_obj_grad; assumption|].
  apply obj_fun_along; assumption.
Qed.

Lemma obj_grad_derivative_witness :
  exists f g,
    obj_fun DenseLinearOperator [qc 1; qc 2] (Q_ns, [qc 1; qc 1]) = Some f /\
    obj_grad DenseLinearOperator [qc 1; qc 2] (Q_ns, [qc 1; qc 1]) = Some g /\
    obj_fun DenseLinearOperator (vadd [qc 1; qc 2] (vscale (qc 3) [qc 1; qc (-1)]))
      (Q_ns, [qc 1; qc 1])
    = Some (f + qc 3 * vdot g [qc 1; qc (-1)]
            + qc 3 * qc 3 * (half * vdot [qc 1; qc (-1)] (mv (m_data Q_ns) [qc 1; qc (-1)]))).
Proof.
  apply obj_grad_derivative; reflexivity.
Defined.

(** *** An exact solve in [run] *)

(** X10. With the default dense operators and a symmetric [Q], if the
    configured solver returns an exact solution of the saddle-point system
    that [run] hands it, then the [KKTSolution] that [run] returns is a zero
    of the object's own optimality function (and has no inequality dual). *)
Theorem run_exact_solve_zero_residual (cfg : EqualityConstrainedQP)
    (init : option KKTSolution) (Q A : Mat) (c b : vec) (step : OptStep) :
  matvec_Q cfg = None -> matvec_A cfg = None -> is_symmetric Q = true ->
  (forall sol, snd (solve cfg (saddle_matvec (DenseLinearOperator Q) (DenseLinearOperator A))
                      (tree_negative c, b) (tol cfg) (maxiter cfg)) = inr sol ->
     snd (saddle_matvec (DenseLinearOperator Q) (DenseLinearOperator A) sol)
     = inr (tree_negative c, b)) ->
  snd (run (__post_init__ cfg) init (Q, c) (A, b)) = inr step ->
  dual_ineq (params step) = None /\
  self_optimality_fun (__post_init__ cfg) (params step) (Q, c) (A, b)
  = Some (mkKKTSolution (repeat 0 (length (primal (params step))))
                        (repeat 0 (length b)) None).
Proof.
  intros HQ HA Hs Hexact Hrun.
  unfold run, __post_init__ in *; rewrite HQ, HA in *; cbn [self_check_params self_matvec_Q
    self_matvec_A self_solve self_tol self_maxiter self_optimality_fun _make_linear_operator] in *.
  unfold mbind at 1 in Hrun.
  destruct (snd (_check_params (Q, c) (A, b))) as [e0|[]];
    cbn [fst snd] in Hrun; [discriminate|].
  unfold make_operator, tell, ret, mbind in Hrun; cbn [fst snd] in Hrun.
  destruct (solve cfg (saddle_matvec (DenseLinearOperator Q) (DenseLinearOperator A))
              (tree_negative c, b) (tol cfg) (maxiter cfg)) as [ls [e|[p d]]] eqn:Es;
    cbn [fst snd] in Hrun; [discriminate|].
  specialize (Hexact (p, d) eq_refl).
  assert (step = mkOptStep (mkKKTSolution p d None) None) as -> by congruence.
  cbn [params primal dual_ineq]; split; [reflexivity|].
  exact (proj2 (@exact_saddle_residual_gen Q A p d c b Hexact) Hs).
Qed.

Lemma run_exact_solve_zero_residual_witness :
  snd (run (__post_init__ (mkEqualityConstrainedQP None None solve_example 10 (qc 0)))
         None (Q_ex, c_ex) (A_ex, b_ex))
    = inr (mkOptStep (mkKKTSolution [half; half] [qc (-1)] None) None) /\
  self_optimality_fun (__post_init__ (mkEqualityConstrainedQP None None solve_example 10 (qc 0)))
    (mkKKTSolution [half; half] [qc (-1)] None) (Q_ex, c_ex) (A_ex, b_ex)
  = Some (mkKKTSolution (repeat 0 2) (repeat 0 1) None).
Proof.
  assert (H : snd (run (__post_init__ (mkEqualityConstrainedQP None None solve_example 10 (qc 0)))
                 None (Q_ex, c_ex) (A_ex, b_ex))
              = inr (mkOptStep (mkKKTSolution [half; half] [qc (-1)] None) None)).
  { vm_compute; reflexivity. }
  split; [exact H|].
  apply (proj2 (@run_exact_solve_zero_residual
                  (mkEqualityConstrainedQP None None solve_example 10 (qc 0)) None
                  Q_ex A_ex c_ex b_ex _ eq_refl eq_refl ltac:(vm_compute; reflexivity)
                  ltac:(intros sol Hsol;
                        change (@inr error (vec * vec) ([half; half], [qc (-1)]) = inr sol)
                          in Hsol;
                        assert (sol = ([half; half], [qc (-1)])) as -> by congruence;
                        apply inr_pair_eqb; vm_compute; reflexivity)
                  H)).
Defined.
